(** * Hierarchical Risk Parity (mlfinlab/portfolio_optimization/hrp.py)

    A shallow embedding of [HierarchicalRiskParity] and the properties its
    specification states about it.

    Conventions of the embedding.
    - A Python call either returns a value or raises: [result].
    - A bare name that neither the function nor the module binds raises
      [NameError] when it is read, exactly as the interpreter does.
    - numpy's [float64] is Rocq's primitive binary64 float ([f64]); the
      statements written "within floating tolerance" are made over the
      exact instance [ideal] of the same interface, where finite arithmetic
      is real arithmetic and the IEEE special values keep their rules. *)

From Stdlib Require Import String.
From Stdlib Require Import List Permutation ZArith Lia Bool.
From Stdlib Require Import PrimFloat SpecFloat FloatOps FloatAxioms.
From Stdlib Require Import Reals Lra.
Import ListNotations.

Set Implicit Arguments.
Set Warnings "-register-all".

(** ** Exceptions and results *)

Inductive exn : Type :=
| NameError (name : string)
| TypeError (what : string)
| IndexError (index : Z)
| ValueError (what : string)
| AttributeError (name : string)
| InvalidInputError.

Inductive result (A : Type) : Type :=
| Ok (a : A)
| Raise (e : exn).

Arguments Ok {A} a.
Arguments Raise {A} e.

Definition bind {A B : Type} (m : result A) (k : A -> result B) : result B :=
  match m with
  | Ok a => k a
  | Raise e => Raise e
  end.

Declare Scope py_scope.
Delimit Scope py_scope with py.
Notation "x <- m ;; k" := (bind m (fun x => k))
  (at level 61, m at next level, right associativity) : py_scope.
Notation "m ;;; k" := (bind m (fun _ => k))
  (at level 61, right associativity) : py_scope.
Open Scope py_scope.

Definition is_ok {A : Type} (m : result A) : bool :=
  match m with Ok _ => true | Raise _ => false end.

(** ** The numeric interface

    The arithmetic the source performs on array elements.  [nround5] is
    [ndarray.round(5)]: multiply by [10**5], round to the nearest integer
    (ties to even), divide by [10**5]. *)

Class Numeric : Type := {
  num : Type;
  nzero : num;
  none : num;
  ntwo : num;
  nhalf : num;
  nadd : num -> num -> num;
  nsub : num -> num -> num;
  nmul : num -> num -> num;
  ndiv : num -> num -> num;
  nopp : num -> num;
  nsqrt : num -> num;
  nround5 : num -> num;
  nis_nan : num -> bool;
  neqb : num -> num -> bool
}.

(** *** binary64 *)

Module F64.

Definition two52 : float := 4503599627370496%float.
Definition ten5 : float := 100000%float.

(** [rint] for a non-negative argument: below [2**52] adding and removing
    [2**52] rounds to the nearest integer, ties to even; from [2**52] on
    every float is an integer. *)
Definition rint_abs (x : float) : float :=
  if PrimFloat.ltb x two52 then PrimFloat.sub (PrimFloat.add x two52) two52 else x.

Definition rint (x : float) : float :=
  if PrimFloat.ltb x PrimFloat.zero
  then PrimFloat.opp (rint_abs (PrimFloat.opp x))
  else rint_abs x.

Definition round5 (x : float) : float :=
  PrimFloat.div (rint (PrimFloat.mul x ten5)) ten5.

End F64.

#[export] Instance f64 : Numeric := {|
  num := float;
  nzero := PrimFloat.zero;
  none := PrimFloat.one;
  ntwo := PrimFloat.two;
  nhalf := 0.5%float;
  nadd := PrimFloat.add;
  nsub := PrimFloat.sub;
  nmul := PrimFloat.mul;
  ndiv := PrimFloat.div;
  nopp := PrimFloat.opp;
  nsqrt := PrimFloat.sqrt;
  nround5 := F64.round5;
  nis_nan := PrimFloat.is_nan;
  neqb := PrimFloat.eqb
|}.

(** *** Exact arithmetic with the IEEE special values

    A finite value is a real number; the results that binary64 gives for
    division by zero, square roots of negative numbers and arithmetic on
    infinities are kept.  There is no rounding and no negative zero. *)

Inductive xreal : Type :=
| Fin (r : R)
| PInf
| NInf
| NaN.

Module Ideal.

Local Open Scope R_scope.

Definition inf_of_sign (negative : bool) : xreal :=
  if negative then NInf else PInf.

Definition add (x y : xreal) : xreal :=
  match x, y with
  | NaN, _ | _, NaN => NaN
  | Fin a, Fin b => Fin (a + b)
  | PInf, NInf | NInf, PInf => NaN
  | PInf, _ | _, PInf => PInf
  | NInf, _ | _, NInf => NInf
  end.

Definition opp (x : xreal) : xreal :=
  match x with
  | Fin a => Fin (- a)
  | PInf => NInf
  | NInf => PInf
  | NaN => NaN
  end.

Definition sub (x y : xreal) : xreal := add x (opp y).

Definition is_neg (a : R) : bool := if Rlt_dec a 0 then true else false.
Definition is_zero (a : R) : bool := if Req_dec_T a 0 then true else false.

Definition mul (x y : xreal) : xreal :=
  match x, y with
  | NaN, _ | _, NaN => NaN
  | Fin a, Fin b => Fin (a * b)
  | Fin a, PInf | PInf, Fin a =>
      if is_zero a then NaN else inf_of_sign (is_neg a)
  | Fin a, NInf | NInf, Fin a =>
      if is_zero a then NaN else inf_of_sign (negb (is_neg a))
  | PInf, PInf | NInf, NInf => PInf
  | PInf, NInf | NInf, PInf => NInf
  end.

Definition div (x y : xreal) : xreal :=
  match x, y with
  | NaN, _ | _, NaN => NaN
  | Fin a, Fin b =>
      if is_zero b
      then (if is_zero a then NaN else inf_of_sign (is_neg a))
      else Fin (a / b)
  | Fin _, (PInf | NInf) => Fin 0
  | PInf, Fin b => inf_of_sign (is_neg b)
  | NInf, Fin b => inf_of_sign (negb (is_neg b))
  | (PInf | NInf), (PInf | NInf) => NaN
  end.

Definition sqrt (x : xreal) : xreal :=
  match x with
  | Fin a => if is_neg a then NaN else Fin (R_sqrt.sqrt a)
  | PInf => PInf
  | NInf | NaN => NaN
  end.

(** Nearest integer, ties to even. *)
Definition rint (a : R) : Z :=
  let f := Int_part a in
  let d := a - IZR f in
  if Rlt_dec d (1 / 2) then f
  else if Rlt_dec (1 / 2) d then (f + 1)%Z
  else if Z.even f then f else (f + 1)%Z.

Definition round5 (x : xreal) : xreal :=
  match x with
  | Fin a => Fin (IZR (rint (a * 100000)) / 100000)
  | _ => x
  end.

Definition is_nan (x : xreal) : bool :=
  match x with NaN => true | _ => false end.

Definition eqb (x y : xreal) : bool :=
  match x, y with
  | Fin a, Fin b => if Req_dec_T a b then true else false
  | PInf, PInf | NInf, NInf => true
  | _, _ => false
  end.

End Ideal.

#[export] Instance ideal : Numeric := {|
  num := xreal;
  nzero := Fin 0;
  none := Fin 1;
  ntwo := Fin 2;
  nhalf := Fin (1 / 2);
  nadd := Ideal.add;
  nsub := Ideal.sub;
  nmul := Ideal.mul;
  ndiv := Ideal.div;
  nopp := Ideal.opp;
  nsqrt := Ideal.sqrt;
  nround5 := Ideal.round5;
  nis_nan := Ideal.is_nan;
  neqb := Ideal.eqb
|}.

(** ** Recursive bisection: the allocation factor (hrp.py:172)

    [alloc_factor = 1 - left_cluster_variance /
                        (left_cluster_variance + right_cluster_variance)] *)

Definition alloc_factor {N : Numeric} (left_cluster_variance right_cluster_variance : num) : num :=
  nsub none (ndiv left_cluster_variance (nadd left_cluster_variance right_cluster_variance)).

(** ** Python sequences and numpy arrays *)

(** [seq[i]] for a Python int [i] on a sequence of length [n]: negative
    indices count from the end, anything else out of range raises. *)
Definition py_index (n : nat) (i : Z) : result nat :=
  if ((0 <=? i) && (i <? Z.of_nat n))%Z then Ok (Z.to_nat i)
  else if ((- Z.of_nat n <=? i) && (i <? 0))%Z then Ok (Z.to_nat (i + Z.of_nat n))
  else Raise (IndexError i).

Fixpoint mapM {A B : Type} (f : A -> result B) (l : list A) : result (list B) :=
  match l with
  | [] => Ok []
  | a :: l' => b <- f a ;; bs <- mapM f l' ;; Ok (b :: bs)
  end.

(** [seq[start:stop]] for [0 <= start <= stop <= len(seq)]. *)
Definition slice {A : Type} (start stop : nat) (l : list A) : list A :=
  firstn (stop - start) (skipn start l).

Section Arrays.

Context {N : Numeric}.

(** A 2-d array, as the list of its rows. *)
Definition matrix : Type := list (list num).

(** An array of any number of dimensions: a scalar (0-d) or the list of
    its sub-arrays along axis 0. *)
Inductive ndarray : Type :=
| Scalar (x : num)
| Arr (rows : list ndarray).

(** [np.ones(shape, dtype=np.float64)] for a list [shape]. *)
Fixpoint np_ones (shape : list Z) : result ndarray :=
  match shape with
  | [] => Ok (Scalar none)
  | d :: ds =>
      if (d <? 0)%Z then Raise (ValueError "negative dimensions are not allowed")
      else sub <- np_ones ds ;; Ok (Arr (repeat sub (Z.to_nat d)))
  end.

(** [a * c], every element. *)
Fixpoint scale (c : num) (a : ndarray) : ndarray :=
  match a with
  | Scalar x => Scalar (nmul x c)
  | Arr rows => Arr (map (scale c) rows)
  end.

(** [a[idx] *= c] for a list of ints [idx]: the rows named by [idx]
    are read, multiplied and written back; a row named twice is still
    multiplied once. *)
Definition imul_at (a : ndarray) (idx : list Z) (c : num) : result ndarray :=
  match a with
  | Scalar _ => Raise (IndexError 0)
  | Arr rows =>
      sel <- mapM (py_index (length rows)) idx ;;
      Ok (Arr (map (fun '(j, row) => if existsb (Nat.eqb j) sel then scale c row else row)
                   (combine (seq 0 (length rows)) rows)))
  end.

(** Iterating an array yields its rows; a 0-d array is not iterable. *)
Definition iter_array (a : ndarray) : result (list ndarray) :=
  match a with
  | Scalar _ => Raise (TypeError "iteration over a 0-d array")
  | Arr rows => Ok rows
  end.

(** [m[np.ix_(rows, cols)]] *)
Definition ix_ (m : matrix) (rows cols : list Z) : result matrix :=
  mapM (fun i =>
          r <- py_index (length m) i ;;
          let row := nth r m [] in
          mapM (fun j => c <- py_index (length row) j ;; Ok (nth c row nzero)) cols)
       rows.

(** [np.diag(m)] for a 2-d [m]. *)
Fixpoint np_diag_from (k : nat) (m : matrix) : list num :=
  match m with
  | [] => []
  | row :: m' =>
      match nth_error row k with
      | Some x => x :: np_diag_from (S k) m'
      | None => []
      end
  end.

Definition np_diag (m : matrix) : list num := np_diag_from 0 m.

(** [np.sum] of a 1-d array, accumulated from the left. *)
Definition np_sum (v : list num) : num := fold_left nadd v nzero.

Definition dot (u v : list num) : num :=
  np_sum (map (fun '(x, y) => nmul x y) (combine u v)).

Definition matvec (m : matrix) (v : list num) : list num :=
  map (fun row => dot row v) m.

(** [np.linalg.multi_dot((w, m, w))]: both orders cost the same, and
    numpy then takes [w . (m . w)]. *)
Definition multi_dot3 (w : list num) (m : matrix) (w' : list num) : num :=
  dot w (matvec m w').

(** A [dict] built by [dict(pairs)]: insertion order, a repeated key
    keeps its first position and takes the last value. *)
Fixpoint dict_set {V : Type} (k : string) (v : V) (d : list (string * V)) : list (string * V) :=
  match d with
  | [] => [(k, v)]
  | (k', v') :: d' => if String.eqb k k' then (k, v) :: d' else (k', v') :: dict_set k v d'
  end.

Definition dict_of {V : Type} (pairs : list (string * V)) : list (string * V) :=
  fold_left (fun d kv => dict_set (fst kv) (snd kv) d) pairs [].

End Arrays.

(** ** The class and its state *)

Section HierarchicalRiskParity.

Context {N : Numeric}.

(** What [self.weights] holds: the empty list of [__init__], the array of
    the bisection, or the final [dict] from asset name to weight. *)
Inductive weights_value : Type :=
| WList (l : list num)
| WArray (a : ndarray)
| WDict (d : list (string * ndarray)).

Record hrp : Type := {
  weights : weights_value;
  ordered_indices : option (list Z);
  clusters : option matrix
}.

(** hrp.py:21-24 *)
Definition init : hrp :=
  {| weights := WList []; ordered_indices := None; clusters := None |}.

(** A method runs on [self], may change it, and returns or raises. *)
Definition py (A : Type) : Type := hrp -> hrp * result A.

Definition ret {A : Type} (a : A) : py A := fun self => (self, Ok a).

Definition lift {A : Type} (m : result A) : py A := fun self => (self, m).

Definition pbind {A B : Type} (m : py A) (k : A -> py B) : py B :=
  fun self =>
    match m self with
    | (self', Ok a) => k a self'
    | (self', Raise e) => (self', Raise e)
    end.

Definition set_weights (v : weights_value) : py unit :=
  fun self =>
    ({| weights := v; ordered_indices := ordered_indices self; clusters := clusters self |},
     Ok tt).

Definition set_clusters (v : matrix) : py unit :=
  fun self =>
    ({| weights := weights self; ordered_indices := ordered_indices self; clusters := Some v |},
     Ok tt).

Definition get_weights : py weights_value := fun self => (self, Ok (weights self)).

(** Reading a bare name that nothing binds. *)
Definition unbound {A : Type} (name : string) : result A := Raise (NameError name).

End HierarchicalRiskParity.

Notation "x <~ m ;; k" := (pbind m (fun x => k))
  (at level 61, m at next level, right associativity) : py_scope.
Notation "m ;;~ k" := (pbind m (fun _ => k))
  (at level 61, right associativity) : py_scope.

Section ClusterVariance.

Context {N : Numeric}.

(** hrp.py:145-147, as a function of the matrix the name [cov_slice]
    stands for: inverse-variance weights, normalised, then the quadratic
    form. *)
Definition inverse_variance_form (cov_slice : matrix) : num :=
  let w := map (ndiv none) (np_diag cov_slice) in
  let total := np_sum w in
  let w := map (fun x => ndiv x total) w in
  multi_dot3 w cov_slice w.

(** hrp.py:134-147.  The sub-matrix is bound to [cluster_covariance];
    the next line reads [cov_slice], which nothing binds. *)
Definition _get_cluster_variance (covariance_matrix : matrix) (cluster_items : list Z)
  : result num :=
  cluster_covariance <- ix_ covariance_matrix cluster_items cluster_items ;;
  cov_slice <- unbound "cov_slice" ;;
  Ok (inverse_variance_form cov_slice).

End ClusterVariance.

(** ** Recursive bisection (hrp.py:149-179) *)

(** hrp.py:160-163, the comprehension that rebuilds the worklist. *)
Definition split_worklist {A : Type} (clustered_alphas : list (list A)) : list (list A) :=
  flat_map
    (fun cluster =>
       flat_map
         (fun '(start, stop) =>
            if 1 <? length cluster then [slice start stop cluster] else [])
         [(0, length cluster / 2); (length cluster / 2, length cluster)])
    clustered_alphas.

Section RecursiveBisection.

Context {N : Numeric}.

(** What [self._get_cluster_variance] resolves to. *)
Variable self_get_cluster_variance : matrix -> list Z -> result num.

(** [self.weights[cluster] *= factor] *)
Definition imul_weights (cluster : list Z) (factor : num) : py unit :=
  w <~ get_weights ;;
  match w with
  | WArray a => a' <~ lift (imul_at a cluster factor) ;; set_weights (WArray a')
  | _ => lift (Raise (TypeError "indices must be integers or slices, not list"))
  end.

(** hrp.py:166-176, the work on one pair. *)
Definition bisect_pair (covariance : matrix) (left_cluster right_cluster : list Z) : py unit :=
  left_cluster_variance <~ lift (self_get_cluster_variance covariance left_cluster) ;;
  right_cluster_variance <~ lift (self_get_cluster_variance covariance right_cluster) ;;
  let alloc_factor := alloc_factor left_cluster_variance right_cluster_variance in
  imul_weights left_cluster alloc_factor ;;~
  imul_weights right_cluster (nsub none alloc_factor).

(** hrp.py:165, [for subcluster in range(0, len(clustered_alphas), 2)]. *)
Fixpoint bisect_pairs (covariance : matrix) (subcluster : nat)
         (clustered_alphas : list (list Z)) : py unit :=
  match clustered_alphas with
  | [] => ret tt
  | [_] => lift (Raise (IndexError (Z.of_nat (subcluster + 1))))
  | left_cluster :: right_cluster :: rest =>
      bisect_pair covariance left_cluster right_cluster ;;~
      bisect_pairs covariance (subcluster + 2) rest
  end.

(** hrp.py:159, [while clustered_alphas:].  [None] is "more iterations
    were needed than [fuel]". *)
Fixpoint bisect_loop (fuel : nat) (covariance : matrix)
         (clustered_alphas : list (list Z)) (self : hrp) : option (hrp * result unit) :=
  match clustered_alphas with
  | [] => Some (self, Ok tt)
  | _ :: _ =>
      match fuel with
      | O => None
      | S fuel' =>
          let clustered_alphas := split_worklist clustered_alphas in
          match bisect_pairs covariance 0 clustered_alphas self with
          | (self', Ok _) => bisect_loop fuel' covariance clustered_alphas self'
          | (self', Raise e) => Some (self', Raise e)
          end
      end
  end.

(** hrp.py:179, [self.weights = dict(zip(assets, self.weights))]. *)
Definition weights_to_dict (assets : list string) : py unit :=
  w <~ get_weights ;;
  match w with
  | WArray a => rows <~ lift (iter_array a) ;; set_weights (WDict (dict_of (combine assets rows)))
  (* not reached: hrp.py:156 has made [self.weights] an array *)
  | WList l => set_weights (WDict (dict_of (combine assets (map Scalar l))))
  | WDict d => lift (Raise (TypeError "weights is already a dict"))
  end.

Definition recursive_bisection_with (covariance : matrix) (indices : list Z)
           (assets : list string) (self : hrp) : option (hrp * result unit) :=
  match (ones <~ lift (np_ones indices) ;; set_weights (WArray ones)) self with
  | (self, Raise e) => Some (self, Raise e)
  | (self, Ok _) =>
      (* clustered_alphas = [self.ordered_indices]; the comprehension
         takes [len] of each element *)
      match ordered_indices self with
      | None => Some (self, Raise (TypeError "object of type 'NoneType' has no len()"))
      | Some l =>
          match bisect_loop (S (length l)) covariance [l] self with
          | None => None
          | Some (self, Raise e) => Some (self, Raise e)
          | Some (self, Ok _) => Some (weights_to_dict assets self)
          end
      end
  end.

End RecursiveBisection.

(** The method as the class has it. *)
Definition _recursive_bisection {N : Numeric} :=
  recursive_bisection_with _get_cluster_variance.

(** ** Long/short adjustment (hrp.py:106-133) *)

Section LongShort.

Context {N : Numeric}.

(** hrp.py:106-112: the method [allocate] calls.  Its body is the
    docstring alone. *)
Definition _build_long_short_portfolio (side_weights : ndarray) : py unit :=
  ret tt.

(** The index array of [np.where(cond)] for a 1-d [cond]. *)
Fixpoint where_from {A : Type} (k : nat) (p : A -> bool) (v : list A) : list nat :=
  match v with
  | [] => []
  | x :: v' => if p x then k :: where_from (S k) p v' else where_from (S k) p v'
  end.

(** [np.where(cond)]: a tuple with one index array per dimension. *)
Definition np_where {A : Type} (p : A -> bool) (v : list A) : list (list nat) :=
  [where_from 0 p v].

(** [w[idx]] for a tuple [idx] holding one index array. *)
Definition take (w : list num) (idx : list (list nat)) : result (list num) :=
  mapM (fun i => match nth_error w i with
                 | Some x => Ok x
                 | None => Raise (IndexError (Z.of_nat i))
                 end)
       (concat idx).

(** [w[idx] = f(w[idx])], elementwise. *)
Definition put (w : list num) (idx : list (list nat)) (f : num -> num) : list num :=
  map (fun '(j, x) => if existsb (Nat.eqb j) (concat idx) then f x else x)
      (combine (seq 0 (length w)) w).

(** [w[idx] /= np.sum(w[idx])] and [w[idx] *= c]. *)
Definition normalise_to (w : list num) (idx : list (list nat)) (c : num) : result (list num) :=
  selected <- take w idx ;;
  let w := put w idx (fun x => ndiv x (np_sum selected)) in
  _ <- take w idx ;;
  Ok (put w idx (fun x => nmul x c)).

(** hrp.py:114-133 *)
Definition build_long_short_portfolio (weights side_weights : list num)
  : result (list num) :=
  let short_ptf := np_where (fun s => neqb s (nopp none)) side_weights in
  let buy_ptf := np_where (fun s => neqb s none) side_weights in
  if 0 <? length short_ptf then
    weights <- normalise_to weights short_ptf (nopp nhalf) ;;
    normalise_to weights buy_ptf nhalf
  else Ok weights.

End LongShort.

(** ** Distance from correlation (hrp.py:77) *)

Definition distance_entry {N : Numeric} (correlation : num) : num :=
  nsqrt (ndiv (nround5 (nsub none correlation)) ntwo).

Definition distance_of_correlation {N : Numeric} (correlation_matrix : matrix) : matrix :=
  map (map distance_entry) correlation_matrix.

(** ** allocate (hrp.py:31-93) *)

Section Allocate.

Context {N : Numeric}.

(** [self._error_checks]: called at hrp.py:55, defined nowhere in the
    file.  Whatever it is, it sees the three arguments of the call. *)
Variable _error_checks : option matrix -> option matrix -> option matrix -> result unit.

(** numpy and scipy. *)
Variable np_diff_ratio : option matrix -> result matrix.
Variable np_cov : option matrix -> result matrix.
Variable np_corrcoef : option matrix -> result matrix.
Variable scipy_linkage : matrix -> string -> result matrix.
Variable to_tree_pre_order : matrix -> result (list Z).

Definition allocate (asset_names : list string)
           (asset_prices asset_returns covariance_matrix distance_matrix : option matrix)
           (side_weights : option ndarray) (linkage : string) : py unit :=
  lift (_error_checks asset_prices asset_returns covariance_matrix) ;;~
  asset_returns <~ lift (match asset_returns, covariance_matrix with
                         | None, None => r <- np_diff_ratio asset_prices ;; Ok (Some r)
                         | _, _ => Ok asset_returns
                         end) ;;
  covariance_matrix <~ lift (match covariance_matrix with
                             | None => np_cov asset_returns
                             | Some c => Ok c
                             end) ;;
  correlation_matrix <~ lift (np_corrcoef asset_returns) ;;
  distance_matrix <~ ret (match distance_matrix with
                          | None => distance_of_correlation correlation_matrix
                          | Some d => d
                          end) ;;
  (* hrp.py:80 reads [distance] and [method]; the parameters are
     [distance_matrix] and [linkage] *)
  distance <~ lift (unbound "distance") ;;
  method <~ lift (unbound "method") ;;
  linked <~ lift (scipy_linkage distance method) ;;
  set_clusters linked ;;~
  (* hrp.py:84 reads [clusters]; line 80 stored [self.clusters] *)
  clusters <~ lift (unbound "clusters") ;;
  ordered_indices <~ lift (to_tree_pre_order clusters) ;;
  ordered_tickers <~ lift (mapM (fun i => k <- py_index (length asset_names) i ;;
                                          Ok (nth k asset_names EmptyString))
                                ordered_indices) ;;
  (* the loop of [_recursive_bisection] never needs more than its fuel
     ([bisect_loop_fuel]), so the second branch is not taken *)
  (fun self =>
     match _recursive_bisection covariance_matrix ordered_indices asset_names self with
     | Some r => r
     | None => (self, Ok tt)
     end) ;;~
  (* hrp.py:92 reads [indices] *)
  side_weights <~ lift (match side_weights with
                        | None => indices <- unbound "indices" ;; np_ones indices
                        | Some s => Ok s
                        end) ;;
  _build_long_short_portfolio side_weights.

End Allocate.

(** ** plot_clusters (hrp.py:95-104) *)

Section PlotClusters.

Context {N : Numeric}.

(** scipy's [dendrogram], given what [self.clusters] holds and the labels. *)
Variable dendrogram_result : Type.
Variable dendrogram : option matrix -> list string -> result dendrogram_result.

Definition plot_clusters (assets : list string) : py dendrogram_result :=
  fun self => (self, dendrogram (clusters self) assets).

End PlotClusters.

(** ** Measures and predicates used by the statements *)




(** What the comprehension emits for one range: nothing for a range of
    at most one element, otherwise the part before and the part from
    position [len // 2]. *)
Definition halves {A : Type} (cluster : list A) : list (list A) :=
  if 1 <? length cluster
  then [firstn (length cluster / 2) cluster; skipn (length cluster / 2) cluster]
  else [].

(** The weights of the assets whose side is [s], and every weight with
    those of the chosen sides mapped through [f]. *)
Definition mask_select {N : Numeric} (p : num -> bool) (side w : list num) : list num :=
  map snd (filter (fun sx => p (fst sx)) (combine side w)).

Definition mask_map {N : Numeric} (p : num -> bool) (f : num -> num) (side w : list num)
  : list num :=
  map (fun sx => if p (fst sx) then f (snd sx) else snd sx) (combine side w).

Definition is_short {N : Numeric} (s : num) : bool := neqb s (nopp none).
Definition is_buy {N : Numeric} (s : num) : bool := neqb s none.

(** [sum(weight for side == s)] *)
Definition side_sum {N : Numeric} (p : num -> bool) (side w : list num) : num :=
  np_sum (mask_select p side w).

(** The same sum over exact weights. *)
Fixpoint rsum_where (p : xreal -> bool) (side : list xreal) (rs : list R) : R :=
  match side, rs with
  | s :: side', r :: rs' => ((if p s then r else 0) + rsum_where p side' rs')%R
  | _, _ => 0%R
  end.

Definition rmap_where (p : xreal -> bool) (f : R -> R) (side : list xreal) (rs : list R)
  : list R :=
  map (fun sx => if p (fst sx) then f (snd sx) else snd sx) (combine side rs).

(** [cluster] names row [j] of an array with [n] rows. *)
Definition names (n : nat) (cluster : list Z) (j : nat) : Prop :=
  exists i, In i cluster /\ py_index n i = Ok j.

(** *** The loop on exact weights

    The vocabulary for following hrp.py:159-176 on a vector of exact
    weights when [self._get_cluster_variance] returns a number. *)

(** [self.weights] as a 1-d array of exact numbers. *)
Definition vec (ws : list R) : weights_value (N:=ideal) :=
  WArray (Arr (map (fun r => Scalar (N:=ideal) (Fin r)) ws)).

(** Every index of the range is one of [0 .. n-1]. *)
Definition in_range (n : nat) (c : list Z) : Prop :=
  forall i, In i c -> (0 <= i < Z.of_nat n)%Z.

(** The weight at index [i]. *)
Definition wt (ws : list R) (i : Z) : R := nth (Z.to_nat i) ws 0%R.

(** [ws[c] *= a] on exact weights. *)
Definition scale_at (c : list Z) (a : R) (ws : list R) : list R :=
  map (fun '(j, r) => if existsb (Nat.eqb j) (map Z.to_nat c) then (r * a)%R else r)
      (combine (seq 0 (length ws)) ws).

Section ExactLoop.

Variable gcv : list (list xreal) -> list Z -> result xreal.
Variable covariance : list (list xreal).

(** The cluster variance of a range, when it is a finite number. *)
Definition variance_of (c : list Z) : R :=
  match gcv covariance c with
  | Ok (Fin v) => v
  | _ => 0%R
  end.

(** The allocation factor of a range: the share of its left half. *)
Definition factor_of (c : list Z) : R :=
  let lv := variance_of (firstn (length c / 2) c) in
  let rv := variance_of (skipn (length c / 2) c) in
  (1 - lv / (lv + rv))%R.

(** The weight every index of a range ends with, when the range enters
    the worklist with the common weight [v]: the product of the factors
    along the path of halvings. *)
Fixpoint final_weights (fuel : nat) (c : list Z) (v : R) : list (Z * R) :=
  match fuel with
  | O => map (fun i => (i, v)) c
  | S fuel' =>
      if 1 <? length c
      then final_weights fuel' (firstn (length c / 2) c) (v * factor_of c)
           ++ final_weights fuel' (skipn (length c / 2) c) (v * (1 - factor_of c))
      else map (fun i => (i, v)) c
  end.

(** One pass of the pair loop over the halves of a worklist. *)
Fixpoint sweep (worklist : list (list Z)) (ws : list R) : list R :=
  match worklist with
  | [] => ws
  | c :: worklist' =>
      if 1 <? length c
      then sweep worklist'
                 (scale_at (skipn (length c / 2) c) (1 - factor_of c)
                           (scale_at (firstn (length c / 2) c) (factor_of c) ws))
      else sweep worklist' ws
  end.

(** The [while] loop. *)
Fixpoint run_ws (fuel : nat) (worklist : list (list Z)) (ws : list R) : list R :=
  match worklist, fuel with
  | [], _ => ws
  | _ :: _, O => ws
  | _ :: _, S fuel' => run_ws fuel' (split_worklist worklist) (sweep worklist ws)
  end.

End ExactLoop.

Definition Rsum (l : list R) : R := fold_right Rplus 0%R l.

(** The length of the longest range of a worklist. *)
Definition max_len {A : Type} (worklist : list (list A)) : nat :=
  fold_right (fun cluster m => Nat.max (length cluster) m) 0 worklist.

(** Row [j] of [self.weights] when it is an array with an axis 0. *)
Definition weight_row {N : Numeric} (self : hrp) (j : nat) : option ndarray :=
  match weights self with
  | WArray (Arr rows) => nth_error rows j
  | _ => None
  end.

(** The rows of [self.weights] along axis 0. *)
Definition weight_rows {N : Numeric} (self : hrp) : option nat :=
  match weights self with
  | WArray (Arr rows) => Some (length rows)
  | _ => None
  end.

Unset Implicit Arguments.

(** * Properties *)

(** ** The worklist comprehension *)

Section SplitWorklist.

Variable A : Type.
Implicit Types (cluster : list A) (worklist : list (list A)).

Lemma slice_prefix cluster h : slice 0 h cluster = firstn h cluster.
Proof. unfold slice. simpl. now rewrite Nat.sub_0_r. Qed.

Lemma slice_suffix cluster h : slice h (length cluster) cluster = skipn h cluster.
Proof.
  unfold slice. apply firstn_all2. rewrite length_skipn. lia.
Qed.

Lemma split_worklist_cons cluster worklist :
  split_worklist (cluster :: worklist) = halves cluster ++ split_worklist worklist.
Proof.
  unfold split_worklist, halves. simpl.
  rewrite slice_prefix, slice_suffix.
  destruct (1 <? length cluster); simpl; reflexivity.
Qed.

Lemma split_worklist_app worklist worklist' :
  split_worklist (worklist ++ worklist') = split_worklist worklist ++ split_worklist worklist'.
Proof. unfold split_worklist. apply flat_map_app. Qed.

Lemma split_worklist_flat worklist :
  split_worklist worklist = flat_map halves worklist.
Proof.
  induction worklist as [|c wl IH]; [reflexivity|].
  rewrite split_worklist_cons, IH. reflexivity.
Qed.

Lemma half_lt n : 1 < n -> n / 2 < n /\ 0 < n / 2.
Proof.
  intros H. split.
  - apply Nat.div_lt; lia.
  - apply Nat.div_str_pos; lia.
Qed.

Lemma in_halves cluster c :
  In c (halves cluster) ->
  1 < length cluster /\ length c < length cluster /\ 0 < length c /\ incl c cluster.
Proof.
  unfold halves. destruct (1 <? length cluster) eqn:E; [|intros []].
  apply Nat.ltb_lt in E. destruct (half_lt _ E) as [H1 H2].
  intros [<-|[<-|[]]]; (split; [assumption|]).
  - rewrite length_firstn. repeat split; try lia.
    intros x Hx. rewrite <- (firstn_skipn (length cluster / 2) cluster).
    apply in_or_app. now left.
  - rewrite length_skipn. repeat split; try lia.
    intros x Hx. rewrite <- (firstn_skipn (length cluster / 2) cluster).
    apply in_or_app. now right.
Qed.

Lemma in_split_worklist worklist c :
  In c (split_worklist worklist) ->
  exists parent, In parent worklist /\ 1 < length parent /\
                 length c < length parent /\ 0 < length c /\ incl c parent.
Proof.
  rewrite split_worklist_flat, in_flat_map. intros (parent & Hin & Hc).
  exists parent. split; [assumption|]. now apply in_halves.
Qed.

Lemma max_len_ge worklist c : In c worklist -> length c <= max_len worklist.
Proof.
  induction worklist as [|c' wl IH]; simpl; [intros []|].
  intros [->|H]; [lia|]. specialize (IH H). lia.
Qed.

Lemma max_len_lt worklist n :
  0 < n -> (forall c, In c worklist -> length c < n) -> max_len worklist < n.
Proof.
  intros Hn. induction worklist as [|c wl IH]; simpl; intros H; [assumption|].
  apply Nat.max_lub_lt; [apply H; now left|]. apply IH. intros; apply H; now right.
Qed.

Lemma max_len_split_lt worklist :
  split_worklist worklist <> [] ->
  max_len (split_worklist worklist) < max_len worklist.
Proof.
  intros Hne. apply max_len_lt.
  - destruct (split_worklist worklist) as [|c wl] eqn:E; [congruence|].
    destruct (in_split_worklist worklist c) as (p & Hp & H1 & _).
    { rewrite E. now left. }
    pose proof (max_len_ge _ _ Hp). lia.
  - intros c Hc. destruct (in_split_worklist _ _ Hc) as (p & Hp & _ & Hlt & _).
    pose proof (max_len_ge _ _ Hp). lia.
Qed.

End SplitWorklist.

(** ** Indexing *)

Lemma mapM_ok_in {A B : Type} (f : A -> result B) (l : list A) (out : list B) :
  mapM f l = Ok out ->
  forall b, In b out <-> exists a, In a l /\ f a = Ok b.
Proof.
  revert out. induction l as [|a l IH]; simpl; intros out H b.
  - injection H as <-. simpl. split; [intros []|intros (a & [] & _)].
  - destruct (f a) as [b0|e] eqn:Ea; simpl in H; [|discriminate].
    destruct (mapM f l) as [bs|e] eqn:El; simpl in H; [|discriminate].
    injection H as <-. simpl. rewrite (IH bs eq_refl b). split.
    + intros [<-|(a' & Ha' & Hf)]; [exists a; auto|exists a'; auto].
    + intros (a' & [<-|Ha'] & Hf); [left; congruence|right; eauto].
Qed.

Lemma existsb_eqb_in (j : nat) (sel : list nat) :
  existsb (Nat.eqb j) sel = true <-> In j sel.
Proof.
  rewrite existsb_exists. split.
  - intros (x & Hx & E). apply Nat.eqb_eq in E. now subst.
  - intros H. exists j. split; [assumption|apply Nat.eqb_refl].
Qed.

Lemma nth_error_map_indexed {A B : Type} (g : nat * A -> B) (l : list A) (s j : nat) :
  nth_error (map g (combine (seq s (length l)) l)) j =
  option_map (fun x => g (s + j, x)) (nth_error l j).
Proof.
  revert s j. induction l as [|x l IH]; intros s j; simpl.
  - now destruct j.
  - destruct j as [|j]; simpl.
    + now rewrite Nat.add_0_r.
    + rewrite IH. now rewrite Nat.add_succ_r.
Qed.

Section WeightUpdates.

Context {N : Numeric}.

Lemma imul_at_rows (rows : list ndarray) (idx : list Z) (c : num) (a' : ndarray) :
  imul_at (Arr rows) idx c = Ok a' ->
  exists sel rows',
    mapM (py_index (length rows)) idx = Ok sel /\
    a' = Arr rows' /\
    length rows' = length rows /\
    forall j, nth_error rows' j =
              option_map (fun row => if existsb (Nat.eqb j) sel then scale c row else row)
                         (nth_error rows j).
Proof.
  unfold imul_at.
  destruct (mapM (py_index (length rows)) idx) as [sel|e] eqn:E; simpl; [|discriminate].
  intros H; injection H as <-. eexists sel, _. repeat split.
  - rewrite length_map, length_combine, length_seq. lia.
  - intros j. apply (nth_error_map_indexed
      (fun p : nat * ndarray =>
         let '(j, row) := p in if existsb (Nat.eqb j) sel then scale c row else row)).
Qed.

(** [self.weights[cluster] *= factor] keeps the rows that [cluster]
    does not name and multiplies the rows it names. *)
Lemma imul_weights_rows (cluster : list Z) (factor : num) (self self' : hrp)
      (rows : list ndarray) :
  weights self = WArray (Arr rows) ->
  imul_weights cluster factor self = (self', Ok tt) ->
  exists rows',
    weights self' = WArray (Arr rows') /\
    ordered_indices self' = ordered_indices self /\
    length rows' = length rows /\
    forall j,
      ((forall i, In i cluster -> py_index (length rows) i <> Ok j) ->
       nth_error rows' j = nth_error rows j) /\
      ((exists i, In i cluster /\ py_index (length rows) i = Ok j) ->
       nth_error rows' j = option_map (scale factor) (nth_error rows j)).
Proof.
  intros Hw. unfold imul_weights, pbind, get_weights, lift, set_weights. rewrite Hw.
  destruct (imul_at (Arr rows) cluster factor) as [a'|e] eqn:E; [|discriminate].
  destruct (imul_at_rows _ _ _ _ E) as (sel & rows' & Hsel & -> & Hlen & Hnth).
  intros H; injection H as <-. simpl. exists rows'. repeat split; try assumption.
  - intros Hout. rewrite Hnth.
    destruct (existsb (Nat.eqb j) sel) eqn:Ex.
    + apply existsb_eqb_in in Ex. apply (mapM_ok_in _ _ _ Hsel) in Ex.
      destruct Ex as (i & Hi & Hj). now elim (Hout i Hi).
    + now destruct (nth_error rows j).
  - intros Hin. rewrite Hnth.
    assert (Ex : existsb (Nat.eqb j) sel = true).
    { apply existsb_eqb_in. now apply (mapM_ok_in _ _ _ Hsel). }
    now rewrite Ex.
Qed.

(** A failed update leaves [self] as it was. *)
Lemma imul_weights_raise (cluster : list Z) (factor : num) (self self' : hrp) (e : exn) :
  imul_weights cluster factor self = (self', Raise e) -> self' = self.
Proof.
  unfold imul_weights, pbind, get_weights, lift, set_weights.
  destruct (weights self) as [l|a|d]; try (intros H; now injection H as <- _).
  destruct (imul_at a cluster factor); simpl; intros H; [discriminate|now injection H as <- _].
Qed.

End WeightUpdates.

(** ** The pair loop and the worklist loop *)

Lemma pairs_ind {A : Type} (P : list A -> Prop) :
  P [] -> (forall x, P [x]) -> (forall x y l, P l -> P (x :: y :: l)) ->
  forall l, P l.
Proof.
  intros H0 H1 H2.
  assert (H : forall l, P l /\ forall x, P (x :: l)).
  { induction l as [|y l [IH1 IH2]]; split; auto. }
  intros l. apply H.
Qed.

Section Loop.

Context {N : Numeric}.
Variable gcv : matrix -> list Z -> result num.

Lemma imul_weights_cases (cluster : list Z) (factor : num) (self : hrp) :
  (exists self', imul_weights cluster factor self = (self', Ok tt)) \/
  (exists e, imul_weights cluster factor self = (self, Raise e)).
Proof.
  destruct (imul_weights cluster factor self) as [self' [[]|e]] eqn:E.
  - left. now exists self'.
  - right. exists e. now rewrite (imul_weights_raise _ _ _ _ _ E).
Qed.

(** One pair: the rows the left range names are multiplied by the
    allocation factor, those the right range names by one minus it, and
    no other row changes. *)
Lemma bisect_pair_ok (covariance : matrix) (left_cluster right_cluster : list Z)
      (self self' : hrp) (rows : list ndarray) :
  weights self = WArray (Arr rows) ->
  bisect_pair gcv covariance left_cluster right_cluster self = (self', Ok tt) ->
  exists lv rv rows',
    gcv covariance left_cluster = Ok lv /\
    gcv covariance right_cluster = Ok rv /\
    weights self' = WArray (Arr rows') /\
    length rows' = length rows /\
    forall j,
      (names (length rows) left_cluster j -> ~ names (length rows) right_cluster j ->
       nth_error rows' j = option_map (scale (alloc_factor lv rv)) (nth_error rows j)) /\
      (~ names (length rows) left_cluster j -> names (length rows) right_cluster j ->
       nth_error rows' j =
       option_map (scale (nsub none (alloc_factor lv rv))) (nth_error rows j)) /\
      (~ names (length rows) left_cluster j -> ~ names (length rows) right_cluster j ->
       nth_error rows' j = nth_error rows j).
Proof.
  intros Hw. unfold bisect_pair, pbind at 1, lift at 1.
  destruct (gcv covariance left_cluster) as [lv|e]; [|discriminate].
  unfold pbind at 1, lift at 1.
  destruct (gcv covariance right_cluster) as [rv|e]; [|discriminate].
  unfold pbind.
  destruct (imul_weights left_cluster (alloc_factor lv rv) self) as [s1 [[]|e]] eqn:E1;
    [|discriminate].
  intros E2.
  destruct (imul_weights_rows _ _ _ _ _ Hw E1) as (rows1 & Hw1 & _ & Hl1 & H1).
  destruct (imul_weights_rows _ _ _ _ _ Hw1 E2) as (rows2 & Hw2 & _ & Hl2 & H2).
  exists lv, rv, rows2. repeat split; try assumption; try congruence.
  - intros HL HR. destruct (H2 j) as [H2a _]. destruct (H1 j) as [_ H1b].
    rewrite H2a, H1b; auto.
    intros i Hi Hj. apply HR. exists i. split; [assumption|congruence].
  - intros HL HR. destruct (H2 j) as [_ H2b]. destruct (H1 j) as [H1a _].
    rewrite H2b, H1a; auto.
    + intros i Hi Hj. apply HL. now exists i.
    + destruct HR as (i & Hi & Hj). exists i. split; [assumption|congruence].
  - intros HL HR. destruct (H2 j) as [H2a _]. destruct (H1 j) as [H1a _].
    rewrite H2a, H1a; auto.
    + intros i Hi Hj. apply HL. now exists i.
    + intros i Hi Hj. apply HR. exists i. split; [assumption|congruence].
Qed.

(** Whatever the outcome, a row that neither range names is kept. *)
Lemma bisect_pair_keeps (covariance : matrix) (left_cluster right_cluster : list Z)
      (self self' : hrp) (r : result unit) (rows : list ndarray) (j : nat) :
  weights self = WArray (Arr rows) ->
  bisect_pair gcv covariance left_cluster right_cluster self = (self', r) ->
  ~ names (length rows) left_cluster j ->
  ~ names (length rows) right_cluster j ->
  exists rows',
    weights self' = WArray (Arr rows') /\ length rows' = length rows /\
    nth_error rows' j = nth_error rows j.
Proof.
  intros Hw E HL HR.
  assert (Hsame : self' = self ->
                  exists rows', weights self' = WArray (Arr rows') /\
                                length rows' = length rows /\
                                nth_error rows' j = nth_error rows j).
  { intros ->. now exists rows. }
  revert E. unfold bisect_pair, pbind at 1, lift at 1.
  destruct (gcv covariance left_cluster) as [lv|e];
    [|intros E; apply Hsame; now injection E as <- _].
  unfold pbind at 1, lift at 1.
  destruct (gcv covariance right_cluster) as [rv|e];
    [|intros E; apply Hsame; now injection E as <- _].
  unfold pbind.
  destruct (imul_weights_cases left_cluster (alloc_factor lv rv) self)
    as [(s1 & E1)|(e & E1)]; rewrite E1;
    [|intros E; apply Hsame; now injection E as <- _].
  destruct (imul_weights_rows _ _ _ _ _ Hw E1) as (rows1 & Hw1 & _ & Hl1 & H1).
  assert (K1 : nth_error rows1 j = nth_error rows j).
  { apply H1. intros i Hi Hj. apply HL. now exists i. }
  destruct (imul_weights_cases right_cluster (nsub none (alloc_factor lv rv)) s1)
    as [(s2 & E2)|(e & E2)]; rewrite E2; intros E; injection E as <- _.
  - destruct (imul_weights_rows _ _ _ _ _ Hw1 E2) as (rows2 & Hw2 & _ & Hl2 & H2).
    exists rows2. repeat split; try congruence.
    rewrite <- K1. apply H2. intros i Hi Hj. apply HR. exists i. split; [assumption|congruence].
  - exists rows1. auto.
Qed.

Lemma bisect_pairs_keeps (covariance : matrix) (clustered_alphas : list (list Z)) (j : nat) :
  forall (subcluster : nat) (self self' : hrp) (r : result unit) (rows : list ndarray),
    weights self = WArray (Arr rows) ->
    bisect_pairs gcv covariance subcluster clustered_alphas self = (self', r) ->
    (forall c, In c clustered_alphas -> ~ names (length rows) c j) ->
    exists rows',
      weights self' = WArray (Arr rows') /\ length rows' = length rows /\
      nth_error rows' j = nth_error rows j.
Proof.
  induction clustered_alphas as [|x|x y l IH] using pairs_ind;
    intros k self self' r rows Hw E Hout.
  - injection E as <- _. now exists rows.
  - injection E as <- _. now exists rows.
  - simpl in E. unfold pbind in E.
    destruct (bisect_pair gcv covariance x y self) as [s1 [[]|e]] eqn:E1.
    + destruct (bisect_pair_keeps _ _ _ _ _ _ _ j Hw E1) as (rows1 & Hw1 & Hl1 & K1).
      { apply Hout; simpl; auto. } { apply Hout; simpl; auto. }
      destruct (IH _ _ _ _ _ Hw1 E) as (rows2 & Hw2 & Hl2 & K2).
      { intros c Hc. rewrite Hl1. apply Hout; simpl; auto. }
      exists rows2. repeat split; congruence.
    + injection E as <- _.
      apply (bisect_pair_keeps _ _ _ _ _ _ _ j Hw E1); apply Hout; simpl; auto.
Qed.

Lemma names_incl (n : nat) (c parent : list Z) (j : nat) :
  incl c parent -> names n c j -> names n parent j.
Proof. intros Hi (i & Hin & Hj). exists i. auto. Qed.

Lemma bisect_loop_step (fuel : nat) (covariance : matrix) (c : list Z)
      (wl : list (list Z)) (self : hrp) :
  bisect_loop gcv (S fuel) covariance (c :: wl) self =
  match bisect_pairs gcv covariance 0 (split_worklist (c :: wl)) self with
  | (self', Ok _) => bisect_loop gcv fuel covariance (split_worklist (c :: wl)) self'
  | (self', Raise e) => Some (self', Raise e)
  end.
Proof. reflexivity. Qed.

(** Across the whole loop, a row that no range of two or more elements
    names keeps its value. *)
Lemma bisect_loop_keeps (covariance : matrix) (j : nat) :
  forall (fuel : nat) (clustered_alphas : list (list Z)) (self self' : hrp)
         (r : result unit) (rows : list ndarray),
    weights self = WArray (Arr rows) ->
    bisect_loop gcv fuel covariance clustered_alphas self = Some (self', r) ->
    (forall c, In c clustered_alphas -> 1 < length c -> ~ names (length rows) c j) ->
    exists rows',
      weights self' = WArray (Arr rows') /\ length rows' = length rows /\
      nth_error rows' j = nth_error rows j.
Proof.
  induction fuel as [|fuel IH]; intros wl self self' r rows Hw E Hout.
  - destruct wl; simpl in E; [|discriminate]. injection E as <- _. now exists rows.
  - destruct wl as [|c0 wl0]; [simpl in E; injection E as <- _; now exists rows|].
    rewrite bisect_loop_step in E.
    set (wl := c0 :: wl0) in *.
    assert (Hsplit : forall c, In c (split_worklist wl) -> ~ names (length rows) c j).
    { intros c Hc Hn. destruct (in_split_worklist _ _ _ Hc) as (p & Hp & H1 & _ & _ & Hincl).
      apply (Hout p Hp H1). eapply names_incl; eassumption. }
    destruct (bisect_pairs gcv covariance 0 (split_worklist wl) self) as [s1 r1] eqn:E1.
    destruct (bisect_pairs_keeps _ _ j _ _ _ _ _ Hw E1 Hsplit) as (rows1 & Hw1 & Hl1 & K1).
    destruct r1 as [u|e].
    + destruct (IH _ _ _ _ _ Hw1 E) as (rows2 & Hw2 & Hl2 & K2).
      { intros c Hc _. rewrite Hl1. now apply Hsplit. }
      exists rows2. repeat split; congruence.
    + injection E as <- _. exists rows1. auto.
Qed.

(** Enough fuel: more than the longest range. *)
Lemma bisect_loop_fuel (covariance : matrix) :
  forall (fuel : nat) (clustered_alphas : list (list Z)) (self : hrp),
    max_len clustered_alphas < fuel ->
    exists out, bisect_loop gcv fuel covariance clustered_alphas self = Some out.
Proof.
  induction fuel as [|fuel IH]; intros wl self Hlt; [lia|].
  destruct wl as [|c0 wl0]; [simpl; eauto|].
  rewrite bisect_loop_step.
  set (wl := c0 :: wl0) in *.
  destruct (bisect_pairs gcv covariance 0 (split_worklist wl) self) as [s1 [u|e]]; [|eauto].
  destruct (split_worklist wl) as [|c1 wl1] eqn:Es.
  - destruct fuel; simpl; eauto.
  - apply IH. rewrite <- Es.
    assert (Hne : split_worklist wl <> []) by (rewrite Es; discriminate).
    pose proof (max_len_split_lt _ _ Hne). lia.
Qed.

End Loop.

(** ** Splitting and termination *)

Lemma halves_long {A : Type} (c : list A) :
  1 < length c ->
  halves c = [firstn (length c / 2) c; skipn (length c / 2) c] /\
  firstn (length c / 2) c ++ skipn (length c / 2) c = c /\
  length (firstn (length c / 2) c) = length c / 2 /\
  length (skipn (length c / 2) c) = length c - length c / 2 /\
  (Nat.odd (length c) = true ->
   length (skipn (length c / 2) c) = S (length (firstn (length c / 2) c))).
Proof.
  intros H. unfold halves. apply Nat.ltb_lt in H as Hb. rewrite Hb.
  destruct (half_lt _ H) as [H1 H2].
  rewrite length_firstn, length_skipn, firstn_skipn.
  repeat split; try lia.
  intros Hodd. apply Nat.odd_spec in Hodd. destruct Hodd as [k Hk].
  assert (Hd : length c / 2 = k).
  { rewrite Hk. symmetry. apply (Nat.div_unique _ 2 k 1); lia. }
  lia.
Qed.

Lemma halves_short {A : Type} (c : list A) : length c <= 1 -> halves c = [].
Proof.
  intros H. unfold halves.
  destruct (1 <? length c) eqn:E; [apply Nat.ltb_lt in E; lia|reflexivity].
Qed.

Example split_worklist_odd :
  split_worklist [[3; 1; 2]%Z; [0%Z]] = [[3%Z]; [1; 2]%Z].
Proof. reflexivity. Qed.

(** The loop on three assets in binary64 when every cluster variance is
    1: the first pass gives 0.5 to index 0 and to the pair 1, 2, the
    second halves the weights of 1 and 2. *)
Example bisect_loop_three_assets_f64 :
  bisect_loop (N:=f64) (fun _ _ => Ok 1%float) 4 [] [[0; 1; 2]%Z]
              {| weights := WArray (Arr [Scalar (N:=f64) 1%float; Scalar (N:=f64) 1%float;
                                       Scalar (N:=f64) 1%float]);
                 ordered_indices := Some [0; 1; 2]%Z; clusters := None |}
  = Some ({| weights := WArray (Arr [Scalar (N:=f64) 0.5%float; Scalar (N:=f64) 0.25%float;
                                     Scalar (N:=f64) 0.25%float]);
             ordered_indices := Some [0; 1; 2]%Z; clusters := None |},
          Ok tt).
Proof. reflexivity. Qed.

(** C4.  The comprehension of [_recursive_bisection] replaces every
    range of more than one element by its two contiguous halves, cut at
    [len // 2]: the left half has [len // 2] elements, the right half the
    rest, one more than the left when the length is odd.  A range of at
    most one element yields nothing, and through the whole loop the
    weight rows that no longer range names keep their value. *)
Theorem bisection_splits_in_halves {N : Numeric}
        (gcv : matrix -> list Z -> result num) (covariance : matrix)
        (clustered_alphas : list (list Z)) :
  split_worklist clustered_alphas = flat_map halves clustered_alphas /\
  (forall c, In c clustered_alphas -> 1 < length c ->
     halves c = [firstn (length c / 2) c; skipn (length c / 2) c] /\
     firstn (length c / 2) c ++ skipn (length c / 2) c = c /\
     length (firstn (length c / 2) c) = length c / 2 /\
     length (skipn (length c / 2) c) = length c - length c / 2 /\
     (Nat.odd (length c) = true ->
      length (skipn (length c / 2) c) = S (length (firstn (length c / 2) c)))) /\
  (forall c, In c clustered_alphas -> length c <= 1 -> halves c = []) /\
  (forall fuel self self' r rows j,
     weights self = WArray (Arr rows) ->
     bisect_loop gcv fuel covariance clustered_alphas self = Some (self', r) ->
     (forall c, In c clustered_alphas -> 1 < length c -> ~ names (length rows) c j) ->
     weight_rows self' = weight_rows self /\ weight_row self' j = weight_row self j).
Proof.
  split; [apply split_worklist_flat|].
  split; [intros c _ H; now apply halves_long|].
  split; [intros c _ H; now apply halves_short|].
  intros fuel self self' r rows j Hw E Hout.
  destruct (bisect_loop_keeps gcv covariance j fuel _ _ _ _ _ Hw E Hout) as (rows' & Hw' & Hl & K).
  unfold weight_rows, weight_row. rewrite Hw, Hw'. split; congruence.
Qed.

(** C10.  Every range the comprehension emits is strictly shorter than
    the range of two or more elements it was cut from, ranges of at most
    one element are discarded, so the longest range gets strictly shorter
    as long as the worklist is not empty; the [while] loop therefore ends
    within one more iteration than the longest range has elements, and
    [_recursive_bisection] never needs more than the fuel it gives
    itself. *)
Theorem bisection_worklist_terminates {N : Numeric}
        (gcv : matrix -> list Z -> result num) (covariance : matrix)
        (clustered_alphas : list (list Z)) (self : hrp) :
  (forall c, In c (split_worklist clustered_alphas) ->
     exists parent, In parent clustered_alphas /\ 1 < length parent /\
                    0 < length c < length parent) /\
  (forall c, In c clustered_alphas -> length c <= 1 -> halves c = []) /\
  (split_worklist clustered_alphas <> [] ->
   max_len (split_worklist clustered_alphas) < max_len clustered_alphas) /\
  (exists out,
     bisect_loop gcv (S (max_len clustered_alphas)) covariance clustered_alphas self = Some out) /\
  (forall indices assets,
     recursive_bisection_with gcv covariance indices assets self <> None).
Proof.
  split.
  { intros c Hc. destruct (in_split_worklist _ _ _ Hc) as (p & Hp & H1 & Hlt & Hpos & _).
    exists p. repeat split; assumption. }
  split; [intros c _ H; now apply halves_short|].
  split; [apply max_len_split_lt|].
  split; [apply bisect_loop_fuel; lia|].
  intros indices assets. unfold recursive_bisection_with.
  destruct ((ones <~ lift (np_ones indices);; set_weights (WArray ones)) self) as [s1 [u|e]];
    [|discriminate].
  destruct (ordered_indices s1) as [l|]; [|discriminate].
  destruct (bisect_loop_fuel gcv covariance (S (length l)) [l] s1) as ([s2 r] & ->).
  { simpl. lia. }
  destruct r; discriminate.
Qed.

(** ** The names the file reads without binding them *)

Section UnboundNames.

Context {N : Numeric}.

Lemma get_cluster_variance_raises (covariance_matrix : matrix) (cluster_items : list Z) :
  exists e, _get_cluster_variance covariance_matrix cluster_items = Raise e.
Proof.
  unfold _get_cluster_variance.
  destruct (ix_ covariance_matrix cluster_items cluster_items); simpl; eauto.
Qed.

Lemma bisect_pair_raises (covariance : matrix) (l r : list Z) (self : hrp) :
  exists e, bisect_pair _get_cluster_variance covariance l r self = (self, Raise e).
Proof.
  destruct (get_cluster_variance_raises covariance l) as [e He].
  exists e. unfold bisect_pair, pbind, lift. now rewrite He.
Qed.

Lemma split_worklist_single_long (l : list Z) :
  1 < length l ->
  split_worklist [l] = [firstn (length l / 2) l; skipn (length l / 2) l].
Proof.
  intros H. rewrite split_worklist_flat. simpl. rewrite app_nil_r.
  now destruct (halves_long l H) as [-> _].
Qed.

(** With two or more ordered indices the first pair already raises. *)
Lemma recursive_bisection_raises (covariance : matrix) (indices : list Z)
      (assets : list string) (self : hrp) (l : list Z) :
  ordered_indices self = Some l -> 1 < length l ->
  exists self' e,
    _recursive_bisection covariance indices assets self = Some (self', Raise e).
Proof.
  intros Ho Hl. unfold _recursive_bisection, recursive_bisection_with.
  unfold pbind, lift, set_weights.
  destruct (np_ones indices) as [ones|e]; [|eauto].
  cbn [ordered_indices]. rewrite Ho.
  destruct l as [|i0 l0]; [simpl in Hl; lia|].
  rewrite bisect_loop_step, split_worklist_single_long by assumption.
  cbn [bisect_pairs]. unfold pbind at 1.
  match goal with
  | |- context [bisect_pair _ ?c ?a ?b ?s] =>
      destruct (bisect_pair_raises c a b s) as [e ->]
  end.
  eauto.
Qed.

End UnboundNames.

(** C2.  [_get_cluster_variance] extracts the sub-matrix of its range
    and then reads the unbound name [cov_slice]: it raises for every
    covariance matrix and every range, [NameError] whenever the indices
    are in range, so no cluster variance and no allocation factor is ever
    computed from it.  Evaluated on the 2x2 identity and the range [0]. *)
Theorem cluster_variance_never_computed :
  _get_cluster_variance (N:=f64) [[1%float; 0%float]; [0%float; 1%float]] [0%Z]
    = Raise (NameError "cov_slice") /\
  (forall (N : Numeric) covariance_matrix cluster_items sub,
     ix_ covariance_matrix cluster_items cluster_items = Ok sub ->
     _get_cluster_variance covariance_matrix cluster_items = Raise (NameError "cov_slice")) /\
  (forall (N : Numeric) covariance_matrix cluster_items v,
     _get_cluster_variance covariance_matrix cluster_items <> Ok v).
Proof.
  split; [reflexivity|]. split.
  - intros N cov items sub H. unfold _get_cluster_variance. now rewrite H.
  - intros N cov items v H.
    destruct (get_cluster_variance_raises cov items) as [e He]. congruence.
Qed.

(** C1.  [_recursive_bisection] on two assets with the 2x2 identity
    covariance: the array of ones has shape [(0, 1)] and the first pair
    raises [NameError]; no weight is produced.  The method raises for
    every covariance and every ordered sequence of two or more indices,
    and also when [self.ordered_indices] is still the [None] of
    [__init__], which is how [allocate] would call it. *)
Theorem recursive_bisection_yields_no_weights :
  _recursive_bisection (N:=f64)
    [[1%float; 0%float]; [0%float; 1%float]] [0%Z; 1%Z] ["A"%string; "B"%string]
    {| weights := WList []; ordered_indices := Some [0%Z; 1%Z]; clusters := None |}
  = Some ({| weights := WArray (Arr []); ordered_indices := Some [0%Z; 1%Z]; clusters := None |},
          Raise (NameError "cov_slice")) /\
  (forall (N : Numeric) covariance indices assets self l,
     ordered_indices self = Some l -> 1 < length l ->
     exists self' e,
       _recursive_bisection covariance indices assets self = Some (self', Raise e)) /\
  (forall (N : Numeric) covariance indices assets self,
     ordered_indices self = None ->
     exists self' e,
       _recursive_bisection covariance indices assets self = Some (self', Raise e)).
Proof.
  split; [reflexivity|]. split.
  - intros N. apply recursive_bisection_raises.
  - intros N covariance indices assets self Ho.
    unfold _recursive_bisection, recursive_bisection_with, pbind, lift, set_weights.
    destruct (np_ones indices) as [ones|e]; [|eauto].
    cbn [ordered_indices]. rewrite Ho. eauto.
Qed.

(** ** A single asset *)



(** ** allocate *)

Section AllocateFacts.

Context {N : Numeric}.
Variable error_checks : option matrix -> option matrix -> option matrix -> result unit.
Variable np_diff_ratio : option matrix -> result matrix.
Variable np_cov : option matrix -> result matrix.
Variable np_corrcoef : option matrix -> result matrix.
Variable scipy_linkage : matrix -> string -> result matrix.
Variable to_tree_pre_order : matrix -> result (list Z).

Let run := allocate error_checks np_diff_ratio np_cov np_corrcoef scipy_linkage
                    to_tree_pre_order.

Ltac run_prelude p r c :=
  unfold run, allocate, pbind, lift, ret, unbound;
  destruct (error_checks p r c) as [[]|?];
  destruct r as [?|]; destruct c as [?|];
  repeat match goal with
         | |- context [match ?f ?x with Ok _ => _ | Raise _ => _ end] =>
             destruct (f x); cbn [bind]
         end.

(** The call never returns: the latest it gets is the read of
    [distance] at hrp.py:80, and [self] is as it was. *)
Lemma allocate_raises names p r c d side linkage self :
  exists e, run names p r c d side linkage self = (self, Raise e).
Proof. run_prelude p r c; eauto. Qed.



Lemma allocate_name_error names p returns covariance d side linkage self corr :
  error_checks p (Some returns) (Some covariance) = Ok tt ->
  np_corrcoef (Some returns) = Ok corr ->
  run names p (Some returns) (Some covariance) d side linkage self
  = (self, Raise (NameError "distance")).
Proof.
  intros H1 H2. unfold run, allocate, pbind, lift, ret, unbound. now rewrite H1, H2.
Qed.

End AllocateFacts.



(** C8.  [allocate] never reaches the traversal of the merge tree: every
    call raises with [self] unchanged, and when the checks and the numpy
    calls succeed it is the read of the unbound name [distance] at
    hrp.py:80 that raises.  No ordered index sequence is produced. *)
Theorem allocate_never_orders_assets {N : Numeric}
        (error_checks : option matrix -> option matrix -> option matrix -> result unit)
        (np_diff_ratio np_cov np_corrcoef : option matrix -> result matrix)
        (scipy_linkage : matrix -> string -> result matrix)
        (to_tree_pre_order : matrix -> result (list Z))
        names p r c d side linkage self :
  let run := allocate error_checks np_diff_ratio np_cov np_corrcoef scipy_linkage
                      to_tree_pre_order in
  (exists e, run names p r c d side linkage self = (self, Raise e)) /\
  (forall returns covariance corr,
     error_checks p (Some returns) (Some covariance) = Ok tt ->
     np_corrcoef (Some returns) = Ok corr ->
     run names p (Some returns) (Some covariance) d side linkage self
     = (self, Raise (NameError "distance"))).
Proof.
  intros run. split.
  - apply allocate_raises.
  - intros. eapply allocate_name_error; eassumption.
Qed.

(** ** The allocation factor in binary64 *)

Section AllocFactorFloat.

Local Open Scope float_scope.

Lemma SF_of_one : Prim2SF 1 = S754_finite false 4503599627370496 (-52).
Proof. reflexivity. Qed.

Lemma SF_of_zero : Prim2SF 0 = S754_zero false.
Proof. reflexivity. Qed.

Lemma SF_of_half : Prim2SF 0.5 = S754_finite false 4503599627370496 (-53).
Proof. reflexivity. Qed.

Lemma eqb_zero_SF (x : float) : (x =? 0) = true -> exists s, Prim2SF x = S754_zero s.
Proof.
  rewrite eqb_spec, SF_of_zero. destruct (Prim2SF x) as [s|s| |s m e]; simpl.
  - eauto.
  - destruct s; discriminate.
  - discriminate.
  - unfold SFeqb; simpl. destruct s; discriminate.
Qed.

Lemma SF_nan_is_nan (x : float) : Prim2SF x = S754_nan -> is_nan x = true.
Proof. intros H. unfold is_nan. now rewrite eqb_spec, H. Qed.

Lemma SF_inf_is_infinity (x : float) (s : bool) :
  Prim2SF x = S754_infinity s -> is_infinity x = true.
Proof.
  intros H. unfold is_infinity. rewrite eqb_spec, abs_spec, H. reflexivity.
Qed.

Lemma alloc_factor_zero_sum_SF (lv rv : float) :
  (lv + rv =? 0) = true ->
  Prim2SF (alloc_factor (N:=f64) lv rv) = S754_nan \/
  exists s, Prim2SF (alloc_factor (N:=f64) lv rv) = S754_infinity s.
Proof.
  intros H. apply eqb_zero_SF in H. destruct H as [s Hs].
  unfold alloc_factor. cbn [nsub ndiv nadd none f64]. unfold PrimFloat.one.
  rewrite sub_spec, div_spec, Hs, SF_of_one.
  destruct (Prim2SF lv) as [sl|sl| |sl ml el]; simpl; eauto.
Qed.

End AllocFactorFloat.

(** C3, as stated, fails on the code: with both cluster variances zero
    the factor is [1 - 0/0], which is NaN and not 0.5. *)
Lemma alloc_factor_zero_variances_nan :
  nis_nan (alloc_factor (N:=f64) 0%float 0%float) = true /\
  neqb (alloc_factor (N:=f64) 0%float 0%float) nhalf = false.
Proof. split; reflexivity. Qed.

(** C3, amended.  hrp.py:172 has no guard: when the two cluster variances
    add up to zero the division is still made, and the allocation factor
    is NaN or infinite, never 0.5. *)
Theorem alloc_factor_zero_sum_not_finite (lv rv : @num f64) :
  neqb (nadd lv rv) nzero = true ->
  (PrimFloat.is_nan (alloc_factor (N:=f64) lv rv) = true \/
   PrimFloat.is_infinity (alloc_factor (N:=f64) lv rv) = true) /\
  neqb (alloc_factor (N:=f64) lv rv) nhalf = false.
Proof.
  intros H. destruct (alloc_factor_zero_sum_SF lv rv H) as [E|[s E]]; split.
  - left. now apply SF_nan_is_nan.
  - cbn [neqb nhalf f64]. now rewrite eqb_spec, E.
  - right. now apply SF_inf_is_infinity with s.
  - cbn [neqb nhalf f64]. rewrite eqb_spec, E, SF_of_half. now destruct s.
Qed.

Lemma alloc_factor_zero_sum_not_finite_witness :
  @neqb f64 (@nadd f64 0%float 0%float) nzero = true /\
  ((PrimFloat.is_nan (alloc_factor (N:=f64) 0%float 0%float) = true \/
    PrimFloat.is_infinity (alloc_factor (N:=f64) 0%float 0%float) = true) /\
   neqb (alloc_factor (N:=f64) 0%float 0%float) nhalf = false).
Proof.
  split; [reflexivity|].
  apply (alloc_factor_zero_sum_not_finite 0%float 0%float). reflexivity.
Defined.

(** ** Distance from correlation *)

Section DistanceIdeal.

Local Open Scope R_scope.

(** The nearest integer of a real is on the same side of an integer
    bound as the real. *)
Lemma rint_ge (lo : Z) (a : R) : IZR lo <= a -> (lo <= Ideal.rint a)%Z.
Proof.
  intros Hlo. unfold Ideal.rint.
  destruct (base_Int_part a) as [Hf1 Hf2].
  set (f := Int_part a) in *.
  assert (Hlof : (lo <= f)%Z).
  { apply Zlt_succ_le. apply lt_IZR. rewrite succ_IZR. lra. }
  destruct (Rlt_dec (a - IZR f) (1 / 2)); [lia|].
  destruct (Rlt_dec (1 / 2) (a - IZR f)); [lia|].
  destruct (Z.even f); lia.
Qed.



Lemma is_neg_false (a : R) : 0 <= a -> Ideal.is_neg a = false.
Proof. intros H. unfold Ideal.is_neg. destruct (Rlt_dec a 0); [lra|reflexivity]. Qed.

Lemma is_zero_false (a : R) : a <> 0 -> Ideal.is_zero a = false.
Proof. intros H. unfold Ideal.is_zero. destruct (Req_dec_T a 0); [contradiction|reflexivity]. Qed.

Lemma distance_entry_fin (c : R) :
  distance_entry (N:=ideal) (Fin c) =
  Ideal.sqrt (Fin (IZR (Ideal.rint ((1 + - c) * 100000)) / 100000 / 2)).
Proof.
  unfold distance_entry. cbn [nsqrt ndiv nround5 nsub none ntwo ideal].
  unfold Ideal.sub. cbn [Ideal.opp Ideal.add Ideal.round5 Ideal.div].
  rewrite is_zero_false by lra. reflexivity.
Qed.

End DistanceIdeal.




(** ** Long/short adjustment *)

Section Masks.

Context {N : Numeric}.
Variable p : num -> bool.

Lemma existsb_where_below (v : list num) :
  forall k j, j < k -> existsb (Nat.eqb j) (where_from k p v) = false.
Proof.
  induction v as [|x v IH]; intros k j Hlt; simpl; [reflexivity|].
  destruct (p x); simpl.
  - rewrite IH by lia. replace (j =? k) with false; [reflexivity|].
    symmetry. apply Nat.eqb_neq. lia.
  - apply IH. lia.
Qed.

Lemma in_combine_seq (w : list num) :
  forall k j x, In (j, x) (combine (seq k (length w)) w) -> k <= j.
Proof.
  induction w as [|y w IH]; intros k j x; simpl; [intros []|].
  intros [E|H]; [injection E as <- _; lia|]. specialize (IH _ _ _ H). lia.
Qed.

Lemma put_where_from (f : num -> num) (side : list num) :
  forall (w : list num) (k : nat),
    length side = length w ->
    map (fun '(j, x) => if existsb (Nat.eqb j) (where_from k p side) then f x else x)
        (combine (seq k (length w)) w)
    = mask_map p f side w.
Proof.
  unfold mask_map.
  induction side as [|s side IH]; intros [|x w] k Hlen; try discriminate; [reflexivity|].
  simpl in Hlen. injection Hlen as Hlen. simpl. f_equal.
  - destruct (p s); simpl.
    + now rewrite Nat.eqb_refl.
    + now rewrite existsb_where_below by lia.
  - rewrite <- (IH w (S k) Hlen). apply map_ext_in. intros [j y] Hin.
    apply in_combine_seq in Hin.
    destruct (p s); simpl; [|reflexivity].
    replace (j =? k) with false; [reflexivity|]. symmetry. apply Nat.eqb_neq. lia.
Qed.

Lemma take_where_from (side : list num) :
  forall (w pre : list num),
    length side = length w ->
    mapM (fun i => match nth_error (pre ++ w) i with
                   | Some x => Ok x
                   | None => Raise (IndexError (Z.of_nat i))
                   end)
         (where_from (length pre) p side)
    = Ok (mask_select p side w).
Proof.
  unfold mask_select.
  induction side as [|s side IH]; intros [|x w] pre Hlen; try discriminate; [reflexivity|].
  simpl in Hlen. injection Hlen as Hlen.
  specialize (IH w (pre ++ [x]) Hlen).
  rewrite <- app_assoc, length_app in IH. simpl in IH.
  rewrite Nat.add_1_r in IH.
  simpl. destruct (p s); simpl.
  - rewrite nth_error_app2 by lia. rewrite Nat.sub_diag. simpl.
    now rewrite IH.
  - exact IH.
Qed.

Lemma put_np_where (f : num -> num) (side w : list num) :
  length side = length w ->
  put w (np_where p side) f = mask_map p f side w.
Proof.
  intros H. unfold put, np_where. simpl. rewrite app_nil_r. now apply put_where_from.
Qed.

Lemma take_np_where (side w : list num) :
  length side = length w ->
  take w (np_where p side) = Ok (mask_select p side w).
Proof.
  intros H. unfold take, np_where. simpl. rewrite app_nil_r.
  apply (take_where_from side w [] H).
Qed.

Lemma mask_map_length (f : num -> num) (side w : list num) :
  length side = length w -> length (mask_map p f side w) = length side.
Proof.
  intros H. unfold mask_map. rewrite length_map, length_combine. lia.
Qed.

Lemma mask_map_compose (f g : num -> num) (side : list num) :
  forall w, length side = length w ->
            mask_map p g side (mask_map p f side w) = mask_map p (fun x => g (f x)) side w.
Proof.
  unfold mask_map.
  induction side as [|s side IH]; intros [|x w] Hlen; try discriminate; [reflexivity|].
  simpl in Hlen. injection Hlen as Hlen. simpl. rewrite (IH w Hlen).
  now destruct (p s).
Qed.

(** [w[idx] /= np.sum(w[idx]); w[idx] *= c] in one step. *)
Lemma normalise_to_mask (side w : list num) (c : num) :
  length side = length w ->
  normalise_to w (np_where p side) c
  = Ok (mask_map p (fun x => nmul (ndiv x (side_sum p side w)) c) side w).
Proof.
  intros H. unfold normalise_to, side_sum.
  rewrite (take_np_where side w H). cbn [bind].
  rewrite (put_np_where _ side w H).
  rewrite take_np_where by (now rewrite mask_map_length).
  cbn [bind].
  rewrite put_np_where by (now rewrite mask_map_length).
  now rewrite mask_map_compose.
Qed.

End Masks.

(** The adjustment in closed form: the guard of hrp.py:123 tests the
    length of the tuple [np.where] returns, which is 1. *)
Lemma build_long_short_closed_form {N : Numeric} (w side : list num) :
  length side = length w ->
  build_long_short_portfolio w side =
  let w1 := mask_map is_short
                     (fun x => nmul (ndiv x (side_sum is_short side w)) (nopp nhalf)) side w in
  Ok (mask_map is_buy (fun x => nmul (ndiv x (side_sum is_buy side w1)) nhalf) side w1).
Proof.
  intros H. unfold build_long_short_portfolio.
  change (0 <? length (np_where (fun s => neqb s (nopp none)) side)) with true.
  cbv iota.
  change (fun s => neqb s (nopp none)) with (is_short (N:=N)).
  change (fun s => neqb s none) with (is_buy (N:=N)).
  rewrite (normalise_to_mask is_short side w _ H). cbn [bind].
  rewrite normalise_to_mask by (now rewrite mask_map_length).
  reflexivity.
Qed.

Section LongShortIdeal.

Local Open Scope R_scope.
Variable p : xreal -> bool.

Lemma np_sum_fin_from (l : list R) :
  forall a, fold_left Ideal.add (map Fin l) (Fin a) = Fin (fold_left Rplus l a).
Proof. induction l as [|x l IH]; intros a; simpl; [reflexivity|apply IH]. Qed.

Lemma side_sum_fin_from (side : list xreal) :
  forall (rs : list R) (a : R),
    fold_left Ideal.add (mask_select (N:=ideal) p side (map Fin rs)) (Fin a)
    = Fin (a + rsum_where p side rs).
Proof.
  unfold mask_select.
  induction side as [|s side IH]; intros [|r rs] a; simpl; try (f_equal; lra).
  destruct (p s); simpl.
  - rewrite IH. f_equal. lra.
  - rewrite IH. f_equal. lra.
Qed.

Lemma side_sum_fin (side : list xreal) (rs : list R) :
  side_sum (N:=ideal) p side (map Fin rs) = Fin (rsum_where p side rs).
Proof.
  unfold side_sum, np_sum. cbn [nadd nzero ideal].
  rewrite side_sum_fin_from. f_equal. lra.
Qed.

Lemma mask_map_fin (S c : R) (side : list xreal) :
  S <> 0 ->
  forall rs,
    mask_map (N:=ideal) p (fun x => nmul (ndiv x (Fin S)) (Fin c)) side (map Fin rs)
    = map Fin (rmap_where p (fun r => r / S * c) side rs).
Proof.
  intros HS. unfold mask_map, rmap_where.
  induction side as [|s side IH]; intros [|r rs]; simpl; try reflexivity.
  rewrite IH. f_equal. destruct (p s); [|reflexivity].
  unfold Ideal.div. now rewrite is_zero_false.
Qed.

Lemma mask_map_none (f : xreal -> xreal) (side : list xreal) :
  existsb p side = false ->
  forall w, length side = length w -> mask_map (N:=ideal) p f side w = w.
Proof.
  unfold mask_map.
  induction side as [|s side IH]; intros Hex [|x w] Hlen; try discriminate; [reflexivity|].
  simpl in Hex. apply orb_false_iff in Hex. destruct Hex as [Hs Hex].
  simpl in Hlen. injection Hlen as Hlen. simpl. rewrite Hs. f_equal. now apply IH.
Qed.

Lemma rmap_where_length (f : R -> R) (side : list xreal) (rs : list R) :
  length side = length rs -> length (rmap_where p f side rs) = length rs.
Proof. intros H. unfold rmap_where. rewrite length_map, length_combine. lia. Qed.

Lemma rsum_rmap_same (S c : R) (side : list xreal) :
  forall rs, rsum_where p side (rmap_where p (fun r => r / S * c) side rs)
             = rsum_where p side rs / S * c.
Proof.
  unfold rmap_where.
  induction side as [|s side IH]; intros [|r rs]; simpl; try lra.
  rewrite IH. destruct (p s); simpl; lra.
Qed.

Lemma rsum_rmap_other (q : xreal -> bool) (f : R -> R) (side : list xreal) :
  (forall s, q s = true -> p s = false) ->
  forall rs, rsum_where q side (rmap_where p f side rs) = rsum_where q side rs.
Proof.
  intros Hd. unfold rmap_where.
  induction side as [|s side IH]; intros [|r rs]; simpl; try lra.
  rewrite IH. destruct (q s) eqn:Eq; [|reflexivity].
  now rewrite (Hd s Eq).
Qed.

Lemma rsum_where_nonneg (side : list xreal) :
  forall rs, (forall r, In r rs -> 0 < r) -> 0 <= rsum_where p side rs.
Proof.
  induction side as [|s side IH]; intros [|r rs] Hpos; simpl; try lra.
  assert (0 < r) by (apply Hpos; now left).
  assert (0 <= rsum_where p side rs) by (apply IH; intros; apply Hpos; now right).
  destruct (p s); lra.
Qed.

Lemma rsum_where_pos (side : list xreal) :
  forall rs, length side = length rs -> (forall r, In r rs -> 0 < r) ->
             existsb p side = true -> 0 < rsum_where p side rs.
Proof.
  induction side as [|s side IH]; intros [|r rs] Hlen Hpos Hex; simpl in *; try discriminate.
  injection Hlen as Hlen.
  assert (0 < r) by (apply Hpos; now left).
  assert (Hrest : forall r', In r' rs -> 0 < r') by (intros; apply Hpos; now right).
  pose proof (rsum_where_nonneg side rs Hrest).
  destruct (p s); [lra|]. simpl in Hex.
  specialize (IH rs Hlen Hrest Hex). lra.
Qed.

End LongShortIdeal.

Lemma short_not_buy (s : xreal) : is_short (N:=ideal) s = true -> is_buy (N:=ideal) s = false.
Proof.
  unfold is_short, is_buy. cbn [neqb nopp none ideal Ideal.opp Ideal.eqb].
  destruct s as [a| | |]; simpl; try (intros H; discriminate H).
  destruct (Req_dec_T a (- (1))%R); simpl; [|intros H; discriminate H]. intros _.
  destruct (Req_dec_T a 1%R); [lra|reflexivity].
Qed.

Lemma buy_not_short (s : xreal) : is_buy (N:=ideal) s = true -> is_short (N:=ideal) s = false.
Proof.
  intros H. destruct (is_short (N:=ideal) s) eqn:E; [|reflexivity].
  apply short_not_buy in E. congruence.
Qed.

Lemma rmap_where_none (p : xreal -> bool) (f : R -> R) (side : list xreal) :
  existsb p side = false ->
  forall rs, length side = length rs -> rmap_where p f side rs = rs.
Proof.
  unfold rmap_where.
  induction side as [|s side IH]; intros Hex [|r rs] Hl; try discriminate; [reflexivity|].
  simpl in Hex. apply orb_false_iff in Hex. destruct Hex as [Es Hex].
  simpl in Hl. injection Hl as Hl. simpl. rewrite Es. f_equal. now apply IH.
Qed.

Lemma rmap_where_short_then_buy (f g : R -> R) (side : list xreal) :
  forall rs,
    map (fun sx : xreal * R =>
           if is_short (N:=ideal) (fst sx) then f (snd sx)
           else if is_buy (N:=ideal) (fst sx) then g (snd sx)
           else snd sx)
        (combine side rs)
    = rmap_where (is_buy (N:=ideal)) g side (rmap_where (is_short (N:=ideal)) f side rs).
Proof.
  unfold rmap_where.
  induction side as [|s side IH]; intros [|r rs]; cbn [combine map fst snd]; try reflexivity.
  rewrite IH. f_equal.
  destruct (is_short (N:=ideal) s) eqn:Es; [|reflexivity].
  now rewrite (short_not_buy s Es).
Qed.

(** C6, as stated, fails on the code.  With every asset on the short
    side (the long side is empty) the weights 0.5, 0.5 become -0.25,
    -0.25: the present side is rescaled, not left as it was.  And the
    method [allocate] calls, [_build_long_short_portfolio], has no
    statement in its body: it changes nothing on any input. *)
Lemma long_short_all_short_rescaled :
  build_long_short_portfolio (N:=f64) [0.5%float; 0.5%float] [(-1)%float; (-1)%float]
    = Ok [(-0.25)%float; (-0.25)%float] /\
  (forall side self, _build_long_short_portfolio (N:=f64) side self = (self, Ok tt)).
Proof. split; reflexivity. Qed.

(** C6, amended.  For [build_long_short_portfolio] on positive weights, in
    exact arithmetic, when at least one asset is on the short side: every
    short weight is divided by the sum of the short weights and multiplied
    by -0.5, every long weight is divided by the sum of the long weights
    and multiplied by 0.5, the other weights are kept; the short weights
    then sum to -0.5, also when the long side is empty, and the long
    weights sum to 0.5 when there is one; no weight is NaN or infinite. *)
Theorem long_short_sums (rs : list R) (side : list xreal) :
  length side = length rs ->
  (forall r, In r rs -> (0 < r)%R) ->
  existsb (is_short (N:=ideal)) side = true ->
  let S := rsum_where (is_short (N:=ideal)) side rs in
  let B := rsum_where (is_buy (N:=ideal)) side rs in
  let out := map (fun sx : xreal * R =>
                    if (is_short (N:=ideal)) (fst sx) then (snd sx / S * - (1 / 2))%R
                    else if (is_buy (N:=ideal)) (fst sx) then (snd sx / B * (1 / 2))%R
                    else snd sx)
                 (combine side rs) in
  build_long_short_portfolio (N:=ideal) (map Fin rs) side = Ok (map Fin out) /\
  side_sum (is_short (N:=ideal)) side (map Fin out) = Fin (- (1 / 2)) /\
  (existsb (is_buy (N:=ideal)) side = true ->
   side_sum (is_buy (N:=ideal)) side (map Fin out) = Fin (1 / 2)).
Proof.
  intros Hlen Hpos Hshort S B out.
  assert (HS : (0 < S)%R) by (now apply rsum_where_pos).
  set (w1 := rmap_where (is_short (N:=ideal)) (fun r => (r / S * - (1 / 2))%R) side rs).
  assert (Hlen1 : length side = length w1).
  { unfold w1. now rewrite rmap_where_length. }
  assert (HB1 : rsum_where (is_buy (N:=ideal)) side w1 = B).
  { unfold w1. apply rsum_rmap_other. apply buy_not_short. }
  assert (Hout : out = rmap_where (is_buy (N:=ideal)) (fun r => (r / B * (1 / 2))%R) side w1).
  { unfold out, w1.
    apply (rmap_where_short_then_buy (fun r => (r / S * - (1 / 2))%R)
                                     (fun r => (r / B * (1 / 2))%R)). }
  assert (Hbuild : build_long_short_portfolio (N:=ideal) (map Fin rs) side = Ok (map Fin out)).
  { rewrite build_long_short_closed_form by (now rewrite length_map).
    cbv zeta. rewrite side_sum_fin. fold S.
    change (nopp nhalf) with (Fin (- (1 / 2))).
    rewrite (mask_map_fin (is_short (N:=ideal)) S (- (1 / 2)) side) by lra. fold w1.
    rewrite side_sum_fin, HB1. change (@nhalf ideal) with (Fin (1 / 2)).
    destruct (existsb (is_buy (N:=ideal)) side) eqn:Eb.
    - assert (HB : (0 < B)%R) by (now apply rsum_where_pos).
      rewrite (mask_map_fin (is_buy (N:=ideal)) B (1 / 2) side) by lra. now rewrite Hout.
    - rewrite mask_map_none by (try assumption; now rewrite length_map).
      rewrite Hout. now rewrite rmap_where_none. }
  split; [exact Hbuild|]. split.
  - rewrite side_sum_fin, Hout. rewrite rsum_rmap_other by apply short_not_buy.
    unfold w1. rewrite rsum_rmap_same. fold S. f_equal. field. lra.
  - intros Eb. assert (HB : (0 < B)%R) by (now apply rsum_where_pos).
    rewrite side_sum_fin, Hout, rsum_rmap_same, HB1. f_equal. field. lra.
Qed.

Lemma long_short_sums_witness :
  exists out : list R,
    build_long_short_portfolio (N:=ideal) (map Fin [(1 / 4)%R; (3 / 4)%R])
                               [Fin (- (1)); Fin 1]
    = Ok (map Fin out) /\
    side_sum (is_short (N:=ideal)) [Fin (- (1)); Fin 1] (map Fin out) = Fin (- (1 / 2)) /\
    side_sum (is_buy (N:=ideal)) [Fin (- (1)); Fin 1] (map Fin out) = Fin (1 / 2).
Proof.
  assert (Hs : is_short (N:=ideal) (Fin (- (1))) = true).
  { unfold is_short. cbn [neqb nopp none ideal Ideal.opp Ideal.eqb].
    destruct (Req_dec_T (- (1)) (- (1))); [reflexivity|contradiction]. }
  assert (Hb : is_buy (N:=ideal) (Fin 1) = true).
  { unfold is_buy. cbn [neqb none ideal Ideal.eqb].
    destruct (Req_dec_T 1 1); [reflexivity|contradiction]. }
  assert (Hpos : forall r, In r [(1 / 4)%R; (3 / 4)%R] -> (0 < r)%R).
  { intros r [<-|[<-|[]]]; lra. }
  assert (Hshort : existsb (is_short (N:=ideal)) [Fin (- (1)); Fin 1] = true).
  { cbn [existsb]. now rewrite Hs. }
  assert (Hbuy : existsb (is_buy (N:=ideal)) [Fin (- (1)); Fin 1] = true).
  { cbn [existsb]. rewrite Hb. now rewrite orb_true_r. }
  destruct (long_short_sums [(1 / 4)%R; (3 / 4)%R] [Fin (- (1)); Fin 1] eq_refl Hpos Hshort)
    as (H1 & H2 & H3).
  eexists. split; [exact H1|]. split; [exact H2|exact (H3 Hbuy)].
Defined.

(** ** The bisection loop on exact weights

    What hrp.py:159-176 computes from a vector of weights when
    [self._get_cluster_variance] returns positive numbers. *)

Section ExactWeights.

Local Open Scope R_scope.

Lemma mapM_py_index_in_range (n : nat) (c : list Z) :
  in_range n c -> mapM (py_index n) c = Ok (map Z.to_nat c).
Proof.
  induction c as [|i c IH]; intros H; simpl; [reflexivity|].
  assert (Hi : (0 <= i < Z.of_nat n)%Z) by (apply H; now left).
  unfold py_index at 1.
  replace ((0 <=? i) && (i <? Z.of_nat n))%Z%bool with true
    by (symmetry; apply andb_true_iff; lia).
  cbn [bind]. rewrite IH; [reflexivity|]. intros j Hj. apply H. now right.
Qed.

Lemma imul_weights_vec (c : list Z) (a : R) (ws : list R) (self : hrp) :
  weights self = vec ws -> in_range (length ws) c ->
  exists self',
    imul_weights c (Fin a) self = (self', Ok tt) /\
    weights self' = vec (scale_at c a ws) /\
    ordered_indices self' = ordered_indices self.
Proof.
  intros Hw Hr. unfold imul_weights, pbind, get_weights, lift. rewrite Hw. unfold vec at 1.
  unfold imul_at. rewrite length_map, (mapM_py_index_in_range _ _ Hr). cbn [bind].
  eexists. split; [reflexivity|]. split; [|reflexivity].
  cbn [weights set_weights fst]. unfold vec, scale_at. do 2 f_equal.
  generalize (map Z.to_nat c) as sel. intros sel.
  generalize 0%nat as k. clear Hw Hr.
  induction ws as [|r ws IH]; intros k; simpl; [reflexivity|].
  f_equal; [|apply IH].
  destruct (existsb (Nat.eqb k) sel); reflexivity.
Qed.

Lemma scale_at_length (c : list Z) (a : R) (ws : list R) :
  length (scale_at c a ws) = length ws.
Proof. unfold scale_at. rewrite length_map, length_combine, length_seq. lia. Qed.

Lemma nth_map_indexed (g : nat * R -> R) (ws : list R) :
  forall (k j : nat),
    (j < length ws)%nat ->
    nth j (map g (combine (seq k (length ws)) ws)) 0 = g ((k + j)%nat, nth j ws 0).
Proof.
  induction ws as [|r ws IH]; intros k j Hj; simpl in Hj; [lia|].
  destruct j as [|j]; simpl.
  - now rewrite Nat.add_0_r.
  - rewrite IH by lia. now rewrite Nat.add_succ_r.
Qed.

Lemma wt_scale_at (c : list Z) (a : R) (ws : list R) (i : Z) :
  in_range (length ws) c -> (0 <= i < Z.of_nat (length ws))%Z ->
  (In i c -> wt (scale_at c a ws) i = wt ws i * a) /\
  (~ In i c -> wt (scale_at c a ws) i = wt ws i).
Proof.
  intros Hr Hi. unfold wt, scale_at.
  rewrite (nth_map_indexed
             (fun p : nat * R =>
                let '(j, r) := p in
                if existsb (Nat.eqb j) (map Z.to_nat c) then r * a else r)) by lia.
  simpl. split; intros H.
  - replace (existsb (Nat.eqb (Z.to_nat i)) (map Z.to_nat c)) with true; [reflexivity|].
    symmetry. apply existsb_eqb_in. now apply in_map.
  - replace (existsb (Nat.eqb (Z.to_nat i)) (map Z.to_nat c)) with false; [reflexivity|].
    symmetry. apply not_true_is_false. intros E. apply existsb_eqb_in in E.
    apply in_map_iff in E. destruct E as (i' & Ei & Hin).
    apply H. specialize (Hr i' Hin). replace i with i' by lia. exact Hin.
Qed.

End ExactWeights.

Section ExactBisection.

Local Open Scope R_scope.

Variable gcv : list (list xreal) -> list Z -> result xreal.
Variable covariance : list (list xreal).

(** The cluster variance of every non-empty range is a positive number. *)
Hypothesis gcv_positive :
  forall c, c <> [] -> exists v, gcv covariance c = Ok (Fin v) /\ 0 < v.

Lemma variance_of_spec (c : list Z) :
  c <> [] -> gcv covariance c = Ok (Fin (variance_of gcv covariance c)) /\
             0 < variance_of gcv covariance c.
Proof.
  intros H. destruct (gcv_positive c H) as (v & E & Hv).
  unfold variance_of. rewrite E. auto.
Qed.

Lemma halves_nonempty (c : list Z) :
  (1 < length c)%nat ->
  firstn (length c / 2) c <> [] /\ skipn (length c / 2) c <> [].
Proof.
  intros H. destruct (halves_long c H) as (_ & _ & H1 & H2 & _).
  destruct (half_lt _ H) as [H3 H4].
  split; intros E; rewrite E in *; simpl in *; lia.
Qed.

Lemma factor_of_unit (c : list Z) :
  (1 < length c)%nat -> 0 < factor_of gcv covariance c < 1.
Proof.
  intros H. destruct (halves_nonempty c H) as [Hl Hr].
  destruct (variance_of_spec _ Hl) as [_ Pl]. destruct (variance_of_spec _ Hr) as [_ Pr].
  unfold factor_of. cbv zeta.
  set (lv := variance_of gcv covariance (firstn (length c / 2) c)) in *.
  set (rv := variance_of gcv covariance (skipn (length c / 2) c)) in *.
  assert (Hs : 0 < lv + rv) by lra.
  assert (E : 1 - lv / (lv + rv) = rv / (lv + rv)) by (field; lra).
  rewrite E. split.
  - apply Rdiv_lt_0_compat; lra.
  - apply Rmult_lt_reg_r with (lv + rv); [lra|].
    unfold Rdiv. rewrite Rmult_assoc, Rinv_l by lra. lra.
Qed.

Lemma alloc_factor_exact (c : list Z) :
  (1 < length c)%nat ->
  alloc_factor (N:=ideal)
               (Fin (variance_of gcv covariance (firstn (length c / 2) c)))
               (Fin (variance_of gcv covariance (skipn (length c / 2) c)))
  = Fin (factor_of gcv covariance c).
Proof.
  intros H. destruct (halves_nonempty c H) as [Hl Hr].
  destruct (variance_of_spec _ Hl) as [_ Pl]. destruct (variance_of_spec _ Hr) as [_ Pr].
  unfold alloc_factor, factor_of. cbn [nsub ndiv nadd none ideal Ideal.add].
  unfold Ideal.div. rewrite is_zero_false by lra.
  unfold Ideal.sub. cbn [Ideal.opp Ideal.add]. reflexivity.
Qed.

(** One pair on exact weights. *)
Lemma bisect_pair_exact (c : list Z) (ws : list R) (self : hrp) :
  (1 < length c)%nat ->
  weights self = vec ws -> in_range (length ws) c ->
  exists self',
    bisect_pair gcv covariance (firstn (length c / 2) c) (skipn (length c / 2) c) self
    = (self', Ok tt) /\
    weights self' =
      vec (scale_at (skipn (length c / 2) c) (1 - factor_of gcv covariance c)
                    (scale_at (firstn (length c / 2) c) (factor_of gcv covariance c) ws)) /\
    ordered_indices self' = ordered_indices self.
Proof.
  intros H Hw Hr. destruct (halves_nonempty c H) as [Hl Hr'].
  destruct (variance_of_spec _ Hl) as [El _]. destruct (variance_of_spec _ Hr') as [Er _].
  unfold bisect_pair, pbind at 1, lift at 1. rewrite El.
  unfold pbind at 1, lift at 1. rewrite Er.
  rewrite (alloc_factor_exact c H).
  assert (Hinl : in_range (length ws) (firstn (length c / 2) c)).
  { intros i Hi. apply Hr. rewrite <- (firstn_skipn (length c / 2) c).
    apply in_or_app. now left. }
  assert (Hinr : in_range (length ws) (skipn (length c / 2) c)).
  { intros i Hi. apply Hr. rewrite <- (firstn_skipn (length c / 2) c).
    apply in_or_app. now right. }
  destruct (imul_weights_vec _ (factor_of gcv covariance c) ws self Hw Hinl)
    as (s1 & E1 & Hw1 & Ho1).
  unfold pbind. rewrite E1.
  change (@nsub ideal (@none ideal) (Fin (factor_of gcv covariance c)))
    with (Fin (1 - factor_of gcv covariance c)).
  rewrite <- (scale_at_length (firstn (length c / 2) c) (factor_of gcv covariance c) ws)
    in Hinr.
  destruct (imul_weights_vec _ (1 - factor_of gcv covariance c) _ s1 Hw1 Hinr)
    as (s2 & E2 & Hw2 & Ho2).
  exists s2. repeat split; try assumption. congruence.
Qed.

Lemma sweep_length (wl : list (list Z)) :
  forall ws, length (sweep gcv covariance wl ws) = length ws.
Proof.
  induction wl as [|c wl IH]; intros ws; simpl; [reflexivity|].
  destruct (1 <? length c)%nat; rewrite IH; [|reflexivity].
  now rewrite !scale_at_length.
Qed.

(** One pass of the pair loop on exact weights. *)
Lemma bisect_pairs_exact (wl : list (list Z)) :
  forall (k : nat) (ws : list R) (self : hrp),
    weights self = vec ws ->
    (forall c, In c wl -> in_range (length ws) c) ->
    exists self',
      bisect_pairs gcv covariance k (split_worklist wl) self = (self', Ok tt) /\
      weights self' = vec (sweep gcv covariance wl ws) /\
      ordered_indices self' = ordered_indices self.
Proof.
  induction wl as [|c wl IH]; intros k ws self Hw Hr.
  - exists self. simpl. auto.
  - rewrite split_worklist_cons. unfold halves. cbn [sweep].
    destruct (1 <? length c)%nat eqn:E.
    + apply Nat.ltb_lt in E. cbn [app bisect_pairs].
      destruct (bisect_pair_exact c ws self E Hw) as (s1 & E1 & Hw1 & Ho1).
      { apply Hr. now left. }
      unfold pbind at 1. rewrite E1.
      destruct (IH (k + 2)%nat _ s1 Hw1) as (s2 & E2 & Hw2 & Ho2).
      { intros c' Hc'. rewrite !scale_at_length. apply Hr. now right. }
      exists s2. repeat split; try assumption. congruence.
    + cbn [app]. apply IH; [assumption|]. intros c' Hc'. apply Hr. now right.
Qed.

Lemma in_range_split (n : nat) (wl : list (list Z)) :
  (forall c, In c wl -> in_range n c) ->
  forall c, In c (split_worklist wl) -> in_range n c.
Proof.
  intros H c Hc i Hi.
  destruct (in_split_worklist _ _ _ Hc) as (p & Hp & _ & _ & _ & Hincl).
  apply (H p Hp). now apply Hincl.
Qed.

Lemma run_ws_length (fuel : nat) :
  forall wl ws, length (run_ws gcv covariance fuel wl ws) = length ws.
Proof.
  induction fuel as [|fuel IH]; intros [|c wl] ws; cbn [run_ws]; try reflexivity.
  rewrite IH. apply sweep_length.
Qed.

(** The [while] loop on exact weights: it ends, without raising, on the
    weights [run_ws] gives. *)
Lemma bisect_loop_exact (fuel : nat) :
  forall (wl : list (list Z)) (ws : list R) (self : hrp),
    (max_len wl < fuel)%nat ->
    weights self = vec ws ->
    (forall c, In c wl -> in_range (length ws) c) ->
    exists self',
      bisect_loop gcv fuel covariance wl self = Some (self', Ok tt) /\
      weights self' = vec (run_ws gcv covariance fuel wl ws) /\
      ordered_indices self' = ordered_indices self.
Proof.
  induction fuel as [|fuel IH]; intros wl ws self Hlt Hw Hr; [lia|].
  destruct wl as [|c0 wl0]; [exists self; simpl; auto|].
  rewrite bisect_loop_step. cbn [run_ws].
  set (wl := c0 :: wl0) in *.
  destruct (bisect_pairs_exact wl 0%nat ws self Hw Hr) as (s1 & E1 & Hw1 & Ho1).
  rewrite E1.
  destruct (split_worklist wl) as [|c1 wl1] eqn:Es.
  - exists s1. destruct fuel; simpl; auto.
  - rewrite <- Es in *.
    assert (Hne : split_worklist wl <> []) by (rewrite Es; discriminate).
    pose proof (max_len_split_lt _ _ Hne) as Hm.
    assert (Hlt' : (max_len (split_worklist wl) < fuel)%nat) by lia.
    assert (Hr' : forall c, In c (split_worklist wl) ->
                            in_range (length (sweep gcv covariance wl ws)) c).
    { rewrite sweep_length. now apply in_range_split. }
    destruct (IH _ _ s1 Hlt' Hw1 Hr') as (s2 & E2 & Hw2 & Ho2).
    exists s2. repeat split; try assumption. congruence.
Qed.

Lemma NoDup_app_disjoint {A : Type} (l1 l2 : list A) :
  NoDup (l1 ++ l2) -> forall a, In a l1 -> ~ In a l2.
Proof.
  induction l1 as [|x l1 IH]; simpl; intros H a; [intros []|].
  inversion H as [|? ? Hx Hnd]; subst. intros [<-|Ha] Hin.
  - apply Hx. apply in_or_app. now right.
  - now apply (IH Hnd a).
Qed.

(** One pair, index by index. *)
Lemma wt_pair (c : list Z) (ws : list R) (i : Z) :
  (1 < length c)%nat -> in_range (length ws) c -> NoDup c ->
  (0 <= i < Z.of_nat (length ws))%Z ->
  let ws1 := scale_at (skipn (length c / 2) c) (1 - factor_of gcv covariance c)
                      (scale_at (firstn (length c / 2) c) (factor_of gcv covariance c) ws) in
  (In i (firstn (length c / 2) c) -> wt ws1 i = wt ws i * factor_of gcv covariance c) /\
  (In i (skipn (length c / 2) c) ->
   wt ws1 i = wt ws i * (1 - factor_of gcv covariance c)) /\
  (~ In i c -> wt ws1 i = wt ws i).
Proof.
  intros H Hr Hnd Hi ws1.
  set (l := firstn (length c / 2) c) in *. set (r := skipn (length c / 2) c) in *.
  set (a := factor_of gcv covariance c) in *.
  assert (Hc : l ++ r = c) by apply firstn_skipn.
  assert (Hinl : in_range (length ws) l).
  { intros j Hj. apply Hr. rewrite <- Hc. apply in_or_app. now left. }
  assert (Hinr : in_range (length (scale_at l a ws)) r).
  { rewrite scale_at_length. intros j Hj. apply Hr. rewrite <- Hc. apply in_or_app. now right. }
  assert (Hi' : (0 <= i < Z.of_nat (length (scale_at l a ws)))%Z)
    by now rewrite scale_at_length.
  destruct (wt_scale_at l a ws i Hinl Hi) as [L1 L2].
  destruct (wt_scale_at r (1 - a) (scale_at l a ws) i Hinr Hi') as [R1 R2].
  rewrite <- Hc in Hnd. pose proof (NoDup_app_disjoint _ _ Hnd) as Hdis.
  unfold ws1. repeat split.
  - intros Hl. rewrite R2 by (now apply Hdis). now apply L1.
  - intros Hr'. rewrite R1 by assumption. rewrite L2; [reflexivity|].
    intros Hl. now apply (Hdis i Hl).
  - intros Hn. rewrite R2, L2; [reflexivity| |].
    + intros Hl. apply Hn. rewrite <- Hc. apply in_or_app. now left.
    + intros Hr'. apply Hn. rewrite <- Hc. apply in_or_app. now right.
Qed.

(** One pass keeps the weight of an index no halved range holds. *)
Lemma wt_sweep_other (wl : list (list Z)) (i : Z) :
  forall ws,
    (forall c, In c wl -> in_range (length ws) c) ->
    Forall (@NoDup Z) wl ->
    (0 <= i < Z.of_nat (length ws))%Z ->
    (forall c, In c wl -> (1 < length c)%nat -> ~ In i c) ->
    wt (sweep gcv covariance wl ws) i = wt ws i.
Proof.
  induction wl as [|c wl IH]; intros ws Hr Hnd Hi Hout; [reflexivity|].
  cbn [sweep]. inversion Hnd as [|? ? Hc Hnd']; subst.
  destruct (1 <? length c)%nat eqn:E.
  - apply Nat.ltb_lt in E.
    destruct (wt_pair c ws i E (Hr c (or_introl eq_refl)) Hc Hi) as (_ & _ & K).
    rewrite IH.
    + apply K. apply Hout; [now left|assumption].
    + intros c' Hc'. rewrite !scale_at_length. apply Hr. now right.
    + assumption.
    + now rewrite !scale_at_length.
    + intros c' Hc'. apply Hout. now right.
  - apply IH; try assumption.
    + intros c' Hc'. apply Hr. now right.
    + intros c' Hc'. apply Hout. now right.
Qed.

Lemma NoDup_concat_each {A : Type} (wl : list (list A)) :
  NoDup (concat wl) -> Forall (@NoDup A) wl.
Proof.
  induction wl as [|c wl IH]; simpl; intros H; constructor.
  - now apply NoDup_app_remove_r in H.
  - apply IH. now apply NoDup_app_remove_l in H.
Qed.

Lemma in_concat_of {A : Type} (wl : list (list A)) (c : list A) (i : A) :
  In c wl -> In i c -> In i (concat wl).
Proof. intros Hc Hi. apply in_concat. eauto. Qed.

(** One pass, index by index: the indices of the left half of a range of
    two or more get its factor, those of the right half one minus it. *)
Lemma wt_sweep (wl : list (list Z)) :
  forall ws,
    (forall c, In c wl -> in_range (length ws) c) ->
    NoDup (concat wl) ->
    forall c, In c wl -> (1 < length c)%nat ->
    forall i,
      (In i (firstn (length c / 2) c) ->
       wt (sweep gcv covariance wl ws) i = wt ws i * factor_of gcv covariance c) /\
      (In i (skipn (length c / 2) c) ->
       wt (sweep gcv covariance wl ws) i = wt ws i * (1 - factor_of gcv covariance c)).
Proof.
  induction wl as [|c0 wl IH]; intros ws Hr Hnd c Hc Hlen i; [destruct Hc|].
  simpl in Hnd. pose proof (NoDup_app_disjoint _ _ Hnd) as Hdis.
  pose proof (NoDup_app_remove_r _ _ Hnd) as Hnd0.
  pose proof (NoDup_app_remove_l _ _ Hnd) as Hnd1.
  assert (Hin : forall j, In j c -> (0 <= j < Z.of_nat (length ws))%Z).
  { intros j Hj. now apply (Hr c Hc). }
  assert (Hsub : forall j, In j (firstn (length c / 2) c) \/ In j (skipn (length c / 2) c) ->
                           In j c).
  { intros j Hj. rewrite <- (firstn_skipn (length c / 2) c). now apply in_or_app. }
  set (ws1 := scale_at (skipn (length c0 / 2) c0) (1 - factor_of gcv covariance c0)
                (scale_at (firstn (length c0 / 2) c0) (factor_of gcv covariance c0) ws)).
  assert (Hr1 : forall c', In c' wl -> in_range (length ws1) c').
  { intros c' Hc'. unfold ws1. rewrite !scale_at_length. apply Hr. now right. }
  destruct Hc as [<-|Hc].
  - (* the range at the head *)
    cbn [sweep]. apply Nat.ltb_lt in Hlen as Hb. rewrite Hb. fold ws1.
    assert (Hkeep : forall j, In j c0 -> wt (sweep gcv covariance wl ws1) j = wt ws1 j).
    { intros j Hj. apply wt_sweep_other; try assumption.
      - now apply NoDup_concat_each.
      - unfold ws1. rewrite !scale_at_length. now apply Hin.
      - intros c' Hc' _ Hj'. apply (Hdis j Hj). eapply in_concat_of; eassumption. }
    split; intros Hi; rewrite Hkeep by (apply Hsub; auto);
      destruct (wt_pair c0 ws i Hlen (Hr c0 (or_introl eq_refl)) Hnd0)
        as (K1 & K2 & _); auto.
  - (* a range of the tail *)
    cbn [sweep]. destruct (1 <? length c0)%nat eqn:E0.
    + apply Nat.ltb_lt in E0. fold ws1.
      assert (Hother : forall j, In j c -> wt ws1 j = wt ws j).
      { intros j Hj.
        assert (Hj0 : ~ In j c0).
        { intros Hj0. apply (Hdis j Hj0). eapply in_concat_of; eassumption. }
        destruct (wt_pair c0 ws j E0 (Hr c0 (or_introl eq_refl)) Hnd0 (Hin j Hj))
          as (_ & _ & K). now apply K. }
      destruct (IH ws1 Hr1 Hnd1 c Hc Hlen i) as [K1 K2].
      split; intros Hi; [rewrite K1 by assumption|rewrite K2 by assumption];
        rewrite Hother by (apply Hsub; auto); reflexivity.
    + apply IH; try assumption. intros c' Hc'. apply Hr. now right.
Qed.

Lemma final_weights_short (fuel : nat) (c : list Z) (v : R) :
  (length c <= 1)%nat ->
  final_weights gcv covariance fuel c v = map (fun i => (i, v)) c.
Proof.
  intros H. destruct fuel; simpl; [reflexivity|].
  destruct (1 <? length c)%nat eqn:E; [apply Nat.ltb_lt in E; lia|reflexivity].
Qed.

Lemma in_split_worklist_half (wl : list (list Z)) (c : list Z) :
  In c (split_worklist wl) <->
  exists p, In p wl /\ (1 < length p)%nat /\
            (c = firstn (length p / 2) p \/ c = skipn (length p / 2) p).
Proof.
  rewrite split_worklist_flat, in_flat_map. unfold halves. split.
  - intros (p & Hp & Hc). exists p. split; [assumption|].
    destruct (1 <? length p)%nat eqn:E; [|destruct Hc].
    apply Nat.ltb_lt in E. split; [assumption|].
    destruct Hc as [<-|[<-|[]]]; auto.
  - intros (p & Hp & Hl & Hc). exists p. split; [assumption|].
    apply Nat.ltb_lt in Hl. rewrite Hl. simpl. destruct Hc as [->| ->]; auto.
Qed.

Lemma NoDup_concat_unique {A : Type} (wl : list (list A)) :
  NoDup (concat wl) ->
  forall c p i, In c wl -> In p wl -> In i c -> In i p -> c = p.
Proof.
  induction wl as [|c0 wl IH]; simpl; intros Hnd c p i Hc Hp Hic Hip; [destruct Hc|].
  pose proof (NoDup_app_disjoint _ _ Hnd) as Hdis.
  destruct Hc as [<-|Hc], Hp as [<-|Hp].
  - reflexivity.
  - exfalso. apply (Hdis i Hic). eapply in_concat_of; eassumption.
  - exfalso. apply (Hdis i Hip). eapply in_concat_of; eassumption.
  - apply (IH (NoDup_app_remove_l _ _ Hnd) c p i); assumption.
Qed.

Lemma NoDup_concat_split (wl : list (list Z)) :
  NoDup (concat wl) -> NoDup (concat (split_worklist wl)).
Proof.
  induction wl as [|c wl IH]; intros Hnd; [constructor|].
  cbn [concat] in Hnd. rewrite split_worklist_cons, concat_app.
  pose proof (NoDup_app_disjoint _ _ Hnd) as Hdis.
  pose proof (NoDup_app_remove_r _ _ Hnd) as Hnd0.
  specialize (IH (NoDup_app_remove_l _ _ Hnd)).
  assert (Hsub : forall i, In i (concat (halves c)) -> In i c).
  { intros i Hi. apply in_concat in Hi. destruct Hi as (h & Hh & Hi).
    destruct (in_halves _ _ _ Hh) as (_ & _ & _ & Hincl). now apply Hincl. }
  apply NoDup_app.
  - unfold halves. destruct (1 <? length c)%nat; [|constructor].
    simpl. rewrite app_nil_r. now rewrite firstn_skipn.
  - assumption.
  - intros i Hi Hi'. apply (Hdis i (Hsub i Hi)).
    apply in_concat in Hi'. destruct Hi' as (c' & Hc' & Hic').
    destruct (in_split_worklist _ _ _ Hc') as (p & Hp & _ & _ & _ & Hincl).
    eapply in_concat_of; [exact Hp|]. now apply Hincl.
Qed.

Lemma in_firstn_parent {A : Type} (n : nat) (c : list A) (j : A) :
  In j (firstn n c) -> In j c.
Proof. intros H. rewrite <- (firstn_skipn n c). apply in_or_app. now left. Qed.

Lemma in_skipn_parent {A : Type} (n : nat) (c : list A) (j : A) :
  In j (skipn n c) -> In j c.
Proof. intros H. rewrite <- (firstn_skipn n c). apply in_or_app. now right. Qed.

Lemma hd_in (c : list Z) : c <> [] -> In (hd 0%Z c) c.
Proof. destruct c; [congruence|]. intros _. now left. Qed.

Lemma split_worklist_nil_short (wl : list (list Z)) :
  split_worklist wl = [] -> forall c, In c wl -> (length c <= 1)%nat.
Proof.
  intros Hs c Hc. destruct (Nat.le_gt_cases (length c) 1) as [H|H]; [assumption|].
  exfalso. assert (Hin : In (firstn (length c / 2) c) (split_worklist wl)).
  { apply in_split_worklist_half. exists c. auto. }
  rewrite Hs in Hin. destruct Hin.
Qed.

(** The loop gives every index the product of the factors along its path
    of halvings, and keeps the weight of the indices outside the ranges
    it halves. *)
Lemma run_ws_final (fuel : nat) :
  forall (wl : list (list Z)) (ws : list R),
    (max_len wl < fuel)%nat ->
    (forall c, In c wl -> in_range (length ws) c) ->
    NoDup (concat wl) ->
    (forall c, In c wl -> forall i, In i c -> wt ws i = wt ws (hd 0%Z c)) ->
    (forall c, In c wl ->
     forall i x,
       In (i, x) (final_weights gcv covariance (pred fuel) c (wt ws (hd 0%Z c))) ->
       wt (run_ws gcv covariance fuel wl ws) i = x) /\
    (forall i, (0 <= i < Z.of_nat (length ws))%Z ->
               (forall c, In c wl -> (1 < length c)%nat -> ~ In i c) ->
               wt (run_ws gcv covariance fuel wl ws) i = wt ws i).
Proof.
  induction fuel as [|f IH]; intros wl ws Hlt Hr Hnd Hu; [lia|].
  destruct wl as [|c0 wl0]; [split; [intros c []|reflexivity]|].
  cbn [run_ws pred]. set (wl := c0 :: wl0) in *.
  set (ws1 := sweep gcv covariance wl ws).
  assert (Hnd_each : Forall (@NoDup Z) wl) by now apply NoDup_concat_each.
  assert (Hlen1 : length ws1 = length ws) by apply sweep_length.
  (* an index of a range of at most one element is in no halved range *)
  assert (Hshort : forall c i, In c wl -> (length c <= 1)%nat -> In i c ->
                               forall p, In p wl -> (1 < length p)%nat -> ~ In i p).
  { intros c i Hc Hl Hi p Hp Hlp Hip.
    assert (c = p) by (eapply NoDup_concat_unique; eassumption). subst. lia. }
  assert (Hsub : forall c' i, In c' (split_worklist wl) -> In i c' ->
                              exists p, In p wl /\ (1 < length p)%nat /\ In i p).
  { intros c' i Hc' Hi. destruct (in_split_worklist _ _ _ Hc') as (p & Hp & Hl & _ & _ & Hincl).
    exists p. auto. }
  destruct (split_worklist wl) as [|c1 wl1] eqn:Es.
  - (* nothing left to halve *)
    assert (Hall : forall c, In c wl -> (length c <= 1)%nat)
      by now apply split_worklist_nil_short.
    assert (Hrun : run_ws gcv covariance f [] ws1 = ws1) by now destruct f.
    rewrite Hrun. split.
    + intros c Hc i x Hin. rewrite final_weights_short in Hin by now apply Hall.
      apply in_map_iff in Hin. destruct Hin as (i' & E & Hi). injection E as <- <-.
      unfold ws1. rewrite wt_sweep_other; try assumption.
      * now apply Hu.
      * now apply (Hr c Hc).
      * intros p Hp Hlp. specialize (Hall p Hp). lia.
    + intros i Hi Hout. unfold ws1. now apply wt_sweep_other.
  - rewrite <- Es in *.
    assert (Hne : split_worklist wl <> []) by (rewrite Es; discriminate).
    pose proof (max_len_split_lt _ _ Hne) as Hm.
    assert (Hu1 : forall c', In c' (split_worklist wl) ->
                             forall i, In i c' -> wt ws1 i = wt ws1 (hd 0%Z c')).
    { intros c' Hc' i Hi.
      assert (Hhd : In (hd 0%Z c') c').
      { apply hd_in. intros ->. destruct Hi. }
      apply in_split_worklist_half in Hc'. destruct Hc' as (p & Hp & Hlp & Hc').
      assert (Hip : forall j, In j c' -> In j p).
      { intros j Hj. rewrite <- (firstn_skipn (length p / 2) p). apply in_or_app.
        destruct Hc' as [->| ->]; auto. }
      assert (Hsame : wt ws i = wt ws (hd 0%Z c')).
      { rewrite (Hu p Hp i (Hip i Hi)). symmetry. apply (Hu p Hp). now apply Hip. }
      unfold ws1.
      destruct (wt_sweep wl ws Hr Hnd p Hp Hlp i) as [K1 K2].
      destruct (wt_sweep wl ws Hr Hnd p Hp Hlp (hd 0%Z c')) as [K3 K4].
      destruct Hc' as [->| ->].
      - rewrite K1, K3 by assumption. now rewrite Hsame.
      - rewrite K2, K4 by assumption. now rewrite Hsame. }
    assert (Hr1 : forall c', In c' (split_worklist wl) -> in_range (length ws1) c').
    { rewrite Hlen1. now apply in_range_split. }
    destruct (IH (split_worklist wl) ws1) as [A B]; try assumption; [lia| |].
    { now apply NoDup_concat_split. }
    split.
    + intros c Hc i x Hin.
      destruct (Nat.le_gt_cases (length c) 1) as [Hl|Hl].
      * rewrite final_weights_short in Hin by assumption.
        apply in_map_iff in Hin. destruct Hin as (i' & E & Hi). injection E as <- <-.
        rewrite B.
        -- unfold ws1. rewrite wt_sweep_other; try assumption.
           ++ now apply Hu.
           ++ now apply (Hr c Hc).
           ++ now apply (Hshort c i').
        -- rewrite Hlen1. now apply (Hr c Hc).
        -- intros c' Hc' _ Hi'. destruct (Hsub c' i' Hc' Hi') as (p & Hp & Hlp & Hip).
           now apply (Hshort c i' Hc Hl Hi p Hp Hlp).
      * destruct f as [|f'].
        { pose proof (max_len_ge _ _ _ Hc). lia. }
        cbn [final_weights] in Hin. apply Nat.ltb_lt in Hl as Hb. rewrite Hb in Hin.
        destruct (halves_nonempty c Hl) as [Hln Hrn].
        assert (Hhl : In (hd 0%Z (firstn (length c / 2) c)) c).
        { apply (in_firstn_parent (length c / 2)). now apply hd_in. }
        assert (Hhr : In (hd 0%Z (skipn (length c / 2) c)) c).
        { apply (in_skipn_parent (length c / 2)). now apply hd_in. }
        destruct (wt_sweep wl ws Hr Hnd c Hc Hl (hd 0%Z (firstn (length c / 2) c)))
          as [K1 _].
        destruct (wt_sweep wl ws Hr Hnd c Hc Hl (hd 0%Z (skipn (length c / 2) c)))
          as [_ K2].
        apply in_app_or in Hin. destruct Hin as [Hin|Hin].
        -- apply (A (firstn (length c / 2) c)).
           ++ apply in_split_worklist_half. exists c. auto.
           ++ cbn [pred]. fold ws1 in K1. rewrite K1 by now apply hd_in.
              now rewrite (Hu c Hc _ Hhl).
        -- apply (A (skipn (length c / 2) c)).
           ++ apply in_split_worklist_half. exists c. auto.
           ++ cbn [pred]. fold ws1 in K2. rewrite K2 by now apply hd_in.
              now rewrite (Hu c Hc _ Hhr).
    + intros i Hi Hout. rewrite B.
      * unfold ws1. now apply wt_sweep_other.
      * now rewrite Hlen1.
      * intros c' Hc' _ Hi'. destruct (Hsub c' i Hc' Hi') as (p & Hp & Hlp & Hip).
        now apply (Hout p Hp Hlp).
Qed.

Lemma final_weights_fst (fuel : nat) :
  forall c v, map fst (final_weights gcv covariance fuel c v) = c.
Proof.
  assert (Hleaf : forall (c : list Z) (v : R), map fst (map (fun i => (i, v)) c) = c).
  { intros c v. rewrite map_map. simpl. apply map_id. }
  induction fuel as [|f IH]; intros c v; simpl; [apply Hleaf|].
  destruct (1 <? length c)%nat; [|apply Hleaf].
  rewrite map_app, !IH. apply firstn_skipn.
Qed.

Lemma Rsum_app (l1 l2 : list R) : Rsum (l1 ++ l2) = Rsum l1 + Rsum l2.
Proof. induction l1 as [|x l1 IH]; simpl; [lra|]. rewrite IH. lra. Qed.

Lemma final_weights_sum (fuel : nat) :
  forall c v, c <> [] -> (length c <= S fuel)%nat ->
              Rsum (map snd (final_weights gcv covariance fuel c v)) = v.
Proof.
  induction fuel as [|f IH]; intros c v Hne Hlen.
  - destruct c as [|i [|j c]]; simpl in *; [congruence|lra|lia].
  - cbn [final_weights]. destruct (1 <? length c)%nat eqn:E.
    + apply Nat.ltb_lt in E. destruct (halves_nonempty c E) as [Hl Hr].
      destruct (halves_long c E) as (_ & _ & L1 & L2 & _).
      destruct (half_lt _ E) as [H1 H2].
      rewrite map_app, Rsum_app, !IH; try assumption; try lia. lra.
    + apply Nat.ltb_ge in E.
      destruct c as [|i [|j c]]; simpl in *; [congruence|lra|lia].
Qed.

Lemma final_weights_pos (fuel : nat) :
  forall c v, 0 < v ->
              forall i x, In (i, x) (final_weights gcv covariance fuel c v) -> 0 < x.
Proof.
  assert (Hleaf : forall (c : list Z) (v : R), 0 < v ->
                    forall i x, In (i, x) (map (fun i => (i, v)) c) -> 0 < x).
  { intros c v Hv i x Hin. apply in_map_iff in Hin. destruct Hin as (j & E & _).
    now injection E as _ <-. }
  induction fuel as [|f IH]; intros c v Hv i x Hin; [now apply (Hleaf c v Hv i)|].
  cbn [final_weights] in Hin. destruct (1 <? length c)%nat eqn:E;
    [|now apply (Hleaf c v Hv i)].
  apply Nat.ltb_lt in E. destruct (factor_of_unit c E) as [F1 F2].
  apply in_app_or in Hin. destruct Hin as [Hin|Hin]; eapply IH; try exact Hin.
  - apply Rmult_lt_0_compat; lra.
  - apply Rmult_lt_0_compat; lra.
Qed.

Lemma Rsum_perm (l l' : list R) : Permutation l l' -> Rsum l = Rsum l'.
Proof. induction 1; simpl; lra. Qed.

Lemma map_nth_seq (l : list R) : map (fun j => nth j l 0) (seq 0 (length l)) = l.
Proof.
  induction l as [|x l IH]; simpl; [reflexivity|].
  f_equal. rewrite <- seq_shift, map_map. exact IH.
Qed.

Lemma map_pointwise (ws : list R) (pairs : list (Z * R)) :
  (forall i x, In (i, x) pairs -> wt ws i = x) ->
  map (wt ws) (map fst pairs) = map snd pairs.
Proof.
  induction pairs as [|[i x] pairs IH]; intros H; simpl; [reflexivity|].
  f_equal.
  - apply H. now left.
  - apply IH. intros j y Hin. apply H. now right.
Qed.

(** The loop of hrp.py:159-176, run on a vector of ones over a
    permutation of the indices with positive cluster variances, ends
    without raising on weights that are all positive and sum to 1: each
    is the product of the allocation factors along its path of halvings.
    [_recursive_bisection] itself does not get there: its first pair
    raises. *)
Theorem bisection_loop_weights (ordered : list Z) (self : hrp) :
  ordered <> [] ->
  Permutation ordered (map Z.of_nat (seq 0 (length ordered))) ->
  weights self = vec (repeat 1 (length ordered)) ->
  exists self' ws,
    bisect_loop gcv (S (length ordered)) covariance [ordered] self = Some (self', Ok tt) /\
    weights self' = vec ws /\
    length ws = length ordered /\
    map (wt ws) ordered
    = map snd (final_weights gcv covariance (length ordered) ordered 1) /\
    (forall r, In r ws -> 0 < r) /\
    Rsum ws = 1.
Proof.
  intros Hne Hperm Hw. set (n := length ordered) in *.
  set (ws0 := repeat 1 n) in *.
  assert (Hlen0 : length ws0 = n) by apply repeat_length.
  assert (Hrange : forall i, In i ordered -> (0 <= i < Z.of_nat n)%Z).
  { intros i Hi. apply (Permutation_in _ Hperm) in Hi.
    apply in_map_iff in Hi. destruct Hi as (j & <- & Hj). apply in_seq in Hj. lia. }
  assert (Hr : forall c, In c [ordered] -> in_range (length ws0) c).
  { intros c [<-|[]]. rewrite Hlen0. exact Hrange. }
  assert (Hmax : (max_len [ordered] < S n)%nat) by (simpl; fold n; lia).
  destruct (bisect_loop_exact (S n) [ordered] ws0 self Hmax Hw Hr) as (self' & E & Hw' & _).
  set (ws := run_ws gcv covariance (S n) [ordered] ws0) in *.
  assert (Hlen : length ws = n) by (unfold ws; now rewrite run_ws_length).
  assert (Hnd : NoDup (concat [ordered])).
  { simpl. rewrite app_nil_r. apply (Permutation_NoDup (Permutation_sym Hperm)).
    apply Finite.Injective_map_NoDup; [|apply seq_NoDup].
    intros a b Hab. lia. }
  assert (Hone : forall i, (0 <= i < Z.of_nat n)%Z -> wt ws0 i = 1).
  { intros i Hi. unfold wt, ws0. apply nth_repeat_lt. lia. }
  assert (Hu : forall c, In c [ordered] -> forall i, In i c -> wt ws0 i = wt ws0 (hd 0%Z c)).
  { intros c [<-|[]] i Hi. rewrite !Hone; auto. apply Hrange. now apply hd_in. }
  destruct (run_ws_final (S n) [ordered] ws0 Hmax Hr Hnd Hu) as [A _].
  specialize (A ordered (or_introl eq_refl)). cbn [pred] in A.
  rewrite (Hone (hd 0%Z ordered)) in A by (apply Hrange; now apply hd_in).
  fold ws in A.
  assert (Hmap : map (wt ws) ordered = map snd (final_weights gcv covariance n ordered 1)).
  { rewrite <- (final_weights_fst n ordered 1) at 1. now apply map_pointwise. }
  exists self', ws. repeat split; try assumption.
  - (* positive *)
    intros r Hin. destruct (In_nth _ _ 0 Hin) as (j & Hj & <-).
    assert (Hjo : In (Z.of_nat j) ordered).
    { apply (Permutation_in _ (Permutation_sym Hperm)). apply in_map. apply in_seq. lia. }
    rewrite <- (final_weights_fst n ordered 1) in Hjo.
    apply in_map_iff in Hjo. destruct Hjo as ([i x] & Ei & Hix). simpl in Ei. subst i.
    pose proof (A _ _ Hix) as Hx. unfold wt in Hx. rewrite Nat2Z.id in Hx. rewrite Hx.
    apply (final_weights_pos n ordered 1 Rlt_0_1 _ _ Hix).
  - (* sum *)
    rewrite <- (map_nth_seq ws), Hlen.
    assert (Emap : map (fun j => nth j ws 0) (seq 0 n)
                   = map (wt ws) (map Z.of_nat (seq 0 n))).
    { rewrite map_map. apply map_ext. intros j. unfold wt. now rewrite Nat2Z.id. }
    rewrite Emap.
    rewrite <- (Rsum_perm _ _ (Permutation_map (wt ws) Hperm)).
    rewrite Hmap. apply final_weights_sum; [assumption|fold n; lia].
Qed.

End ExactBisection.

(** Three assets in the order 1, 0, 2 with every cluster variance 1: the
    hypotheses of [bisection_loop_weights] hold, and the loop ends on
    positive weights that sum to 1. *)
Example bisection_loop_three_assets :
  exists self' ws,
    bisect_loop (N:=ideal) (fun _ _ => Ok (Fin 1)) 4 [] [[1; 0; 2]%Z]
                {| weights := vec (repeat 1%R 3); ordered_indices := Some [1; 0; 2]%Z;
                   clusters := None |}
    = Some (self', Ok tt) /\
    weights self' = vec ws /\
    (forall r, In r ws -> (0 < r)%R) /\
    Rsum ws = 1%R.
Proof.
  destruct (bisection_loop_weights (fun _ _ => Ok (Fin 1)) [])
    with (ordered := [1; 0; 2]%Z)
         (self := {| weights := vec (repeat 1%R 3); ordered_indices := Some [1; 0; 2]%Z;
                     clusters := None |})
    as (self' & ws & E & Hw & _ & _ & Hpos & Hsum).
  - intros c _. exists 1%R. split; [reflexivity|lra].
  - discriminate.
  - simpl. apply perm_swap.
  - reflexivity.
  - exists self', ws. auto.
Qed.

(** The quadratic form of hrp.py:145-147 on a 2x2 diagonal matrix. *)
Example inverse_variance_form_diagonal :
  inverse_variance_form (N:=f64) [[4%float; 0%float]; [0%float; 4%float]] = 2%float.
Proof. reflexivity. Qed.

(** * Further properties of the code *)

(** ** The loop: when it cannot raise, and what it leaves alone *)


Lemma mapM_raise_from {A B : Type} (f : A -> result B) (l : list A) (e : exn) :
  mapM f l = Raise e -> exists a, In a l /\ f a = Raise e.
Proof.
  induction l as [|a l IH]; simpl; [discriminate|].
  destruct (f a) as [b|e'] eqn:Ea; simpl.
  - destruct (mapM f l) as [bs|e'']; simpl; [discriminate|].
    intros H. injection H as ->. destruct (IH eq_refl) as (a' & Ha' & Hf). eauto.
  - intros H. injection H as ->. eauto.
Qed.


Lemma py_index_raise (n : nat) (i : Z) (e : exn) :
  py_index n i = Raise e ->
  e = IndexError i /\ ~ (- Z.of_nat n <= i < Z.of_nat n)%Z.
Proof.
  unfold py_index.
  destruct ((0 <=? i) && (i <? Z.of_nat n))%Z eqn:E1; [discriminate|].
  destruct ((- Z.of_nat n <=? i) && (i <? 0))%Z eqn:E2; [discriminate|].
  intros H. injection H as <-. split; [reflexivity|].
  apply andb_false_iff in E1. apply andb_false_iff in E2.
  destruct E1 as [E1|E1], E2 as [E2|E2]; lia.
Qed.

Section LoopSafety.

Context {N : Numeric}.
Variable gcv : matrix -> list Z -> result num.
Variable covariance : matrix.


(** Whatever a method of the loop does to [self], it assigns
    [self.weights] only. *)
Lemma imul_weights_frame (c : list Z) (f : num) (self self' : hrp) (r : result unit) :
  imul_weights c f self = (self', r) ->
  ordered_indices self' = ordered_indices self /\ clusters self' = clusters self.
Proof.
  unfold imul_weights, pbind, get_weights, lift, set_weights.
  destruct (weights self) as [l|a|d]; try (intros H; injection H as <- _; auto).
  destruct (imul_at a c f); intros H; injection H as <- _; auto.
Qed.

Lemma bisect_pair_frame (l r : list Z) (self self' : hrp) (res : result unit) :
  bisect_pair gcv covariance l r self = (self', res) ->
  ordered_indices self' = ordered_indices self /\ clusters self' = clusters self.
Proof.
  unfold bisect_pair, pbind at 1, lift at 1.
  destruct (gcv covariance l) as [lv|e]; [|intros H; injection H as <- _; auto].
  unfold pbind at 1, lift at 1.
  destruct (gcv covariance r) as [rv|e]; [|intros H; injection H as <- _; auto].
  unfold pbind.
  destruct (imul_weights l (alloc_factor lv rv) self) as [s1 [u|e]] eqn:E1.
  - intros E2. destruct (imul_weights_frame _ _ _ _ _ E1) as [A1 B1].
    destruct (imul_weights_frame _ _ _ _ _ E2) as [A2 B2]. split; congruence.
  - intros H. injection H as <- _. apply (imul_weights_frame _ _ _ _ _ E1).
Qed.

Lemma bisect_pairs_frame (wl : list (list Z)) :
  forall (k : nat) (self self' : hrp) (res : result unit),
    bisect_pairs gcv covariance k wl self = (self', res) ->
    ordered_indices self' = ordered_indices self /\ clusters self' = clusters self.
Proof.
  induction wl as [|x|x y wl IH] using pairs_ind; intros k self self' res E.
  - injection E as <- _. auto.
  - injection E as <- _. auto.
  - simpl in E. unfold pbind in E.
    destruct (bisect_pair gcv covariance x y self) as [s1 [u|e]] eqn:E1.
    + destruct (bisect_pair_frame _ _ _ _ _ E1) as [A1 B1].
      destruct (IH _ _ _ _ E) as [A2 B2]. split; congruence.
    + injection E as <- _. apply (bisect_pair_frame _ _ _ _ _ E1).
Qed.

Lemma bisect_loop_frame (fuel : nat) :
  forall (wl : list (list Z)) (self self' : hrp) (res : result unit),
    bisect_loop gcv fuel covariance wl self = Some (self', res) ->
    ordered_indices self' = ordered_indices self /\ clusters self' = clusters self.
Proof.
  induction fuel as [|fuel IH]; intros wl self self' res E.
  - destruct wl; simpl in E; [|discriminate]. injection E as <- _. auto.
  - destruct wl as [|c wl]; [simpl in E; injection E as <- _; auto|].
    rewrite bisect_loop_step in E.
    destruct (bisect_pairs gcv covariance 0 (split_worklist (c :: wl)) self)
      as [s1 [u|e]] eqn:E1.
    + destruct (bisect_pairs_frame _ _ _ _ _ E1) as [A1 B1].
      destruct (IH _ _ _ _ E) as [A2 B2]. split; congruence.
    + injection E as <- _. apply (bisect_pairs_frame _ _ _ _ _ E1).
Qed.

Lemma py_index_lt (n : nat) (i : Z) (j : nat) : py_index n i = Ok j -> j < n.
Proof.
  unfold py_index.
  destruct ((0 <=? i) && (i <? Z.of_nat n))%Z eqn:E1.
  - intros H; injection H as <-. apply andb_true_iff in E1. lia.
  - destruct ((- Z.of_nat n <=? i) && (i <? 0))%Z eqn:E2; [|discriminate].
    intros H; injection H as <-. apply andb_true_iff in E2. lia.
Qed.

(** The number of rows of [self.weights] never changes in the loop. *)
Lemma bisect_loop_rows (fuel : nat) (wl : list (list Z)) (self self' : hrp)
      (res : result unit) (rows : list ndarray) :
  weights self = WArray (Arr rows) ->
  bisect_loop gcv fuel covariance wl self = Some (self', res) ->
  exists rows', weights self' = WArray (Arr rows') /\ length rows' = length rows.
Proof.
  intros Hw E.
  destruct (bisect_loop_keeps gcv covariance (length rows) fuel wl self self' res rows Hw E)
    as (rows' & Hw' & Hl & _).
  - intros c _ _ (i & _ & Hi). apply py_index_lt in Hi. lia.
  - eauto.
Qed.

Section TotalVariance.

(** [self._get_cluster_variance] returns for every non-empty range. *)
Hypothesis gcv_returns : forall c, c <> [] -> exists v, gcv covariance c = Ok v.




End TotalVariance.

End LoopSafety.

(** ** What [_recursive_bisection] returns *)

Section BisectionReturn.

Context {N : Numeric}.
Variable gcv : matrix -> list Z -> result num.
Variable covariance : matrix.

Lemma bisect_pair_scalar (l r : list Z) (self self' : hrp) (x : num) (u : unit) :
  weights self = WArray (Scalar x) ->
  bisect_pair gcv covariance l r self <> (self', Ok u).
Proof.
  intros Hw. unfold bisect_pair, pbind at 1, lift at 1.
  destruct (gcv covariance l) as [lv|e]; [|discriminate].
  unfold pbind at 1, lift at 1.
  destruct (gcv covariance r) as [rv|e]; [|discriminate].
  unfold pbind, imul_weights at 1, pbind, get_weights, lift. rewrite Hw. simpl. discriminate.
Qed.

Lemma bisect_pairs_scalar (wl : list (list Z)) :
  forall (k : nat) (self self' : hrp) (x : num) (u : unit),
    weights self = WArray (Scalar x) ->
    bisect_pairs gcv covariance k wl self = (self', Ok u) -> self' = self.
Proof.
  induction wl as [|c|c c' wl IH] using pairs_ind; intros k self self' x u Hw E.
  - now injection E as <-.
  - discriminate.
  - simpl in E. unfold pbind in E.
    destruct (bisect_pair gcv covariance c c' self) as [s1 [u1|e]] eqn:E1; [|discriminate].
    now elim (bisect_pair_scalar c c' self s1 x u1 Hw).
Qed.

Lemma bisect_loop_scalar (fuel : nat) :
  forall (wl : list (list Z)) (self self' : hrp) (x : num) (u : unit),
    weights self = WArray (Scalar x) ->
    bisect_loop gcv fuel covariance wl self = Some (self', Ok u) -> self' = self.
Proof.
  induction fuel as [|fuel IH]; intros wl self self' x u Hw E.
  - destruct wl; simpl in E; [|discriminate]. now injection E as <-.
  - destruct wl as [|c wl]; [simpl in E; now injection E as <-|].
    rewrite bisect_loop_step in E.
    destruct (bisect_pairs gcv covariance 0 (split_worklist (c :: wl)) self)
      as [s1 [u1|e]] eqn:E1; [|discriminate].
    apply (bisect_pairs_scalar _ _ _ _ x u1 Hw) in E1. subst s1.
    now apply (IH _ _ _ x u Hw E).
Qed.

Lemma dict_set_length {V : Type} (k : string) (v : V) (d : list (string * V)) :
  length (dict_set k v d) <= S (length d).
Proof.
  induction d as [|[k' v'] d IH]; simpl; [lia|].
  destruct (String.eqb k k'); simpl; lia.
Qed.

Lemma dict_of_length {V : Type} (pairs : list (string * V)) :
  length (dict_of pairs) <= length pairs.
Proof.
  unfold dict_of.
  assert (H : forall d, length (fold_left (fun d kv => dict_set (fst kv) (snd kv) d) pairs d)
                        <= length d + length pairs).
  { induction pairs as [|kv pairs IH]; intros d; simpl; [lia|].
    specialize (IH (dict_set (fst kv) (snd kv) d)).
    pose proof (dict_set_length (fst kv) (snd kv) d). lia. }
  apply (H []).
Qed.

Lemma np_ones_rows (d : Z) (ds : list Z) (a : ndarray) :
  np_ones (d :: ds) = Ok a -> exists rows, a = Arr rows /\ length rows = Z.to_nat d.
Proof.
  simpl. destruct (d <? 0)%Z; [discriminate|].
  destruct (np_ones ds) as [sub|e]; simpl; [|discriminate].
  intros H. injection H as <-. eexists. split; [reflexivity|apply repeat_length].
Qed.

(** X2.  When [_recursive_bisection] returns, whatever
    [self._get_cluster_variance] is: [indices] is not empty, [self.weights]
    is a [dict] with at most [indices[0]] entries and at most one per asset
    name (the array it is built from has the shape [indices], so
    [indices[0]] rows), and [self.ordered_indices] and [self.clusters] are
    what they were. *)
Theorem recursive_bisection_returns (indices : list Z) (assets : list string)
        (self self' : hrp) :
  recursive_bisection_with gcv covariance indices assets self = Some (self', Ok tt) ->
  exists d ds dict,
    indices = d :: ds /\
    weights self' = WDict dict /\
    length dict <= Nat.min (length assets) (Z.to_nat d) /\
    ordered_indices self' = ordered_indices self /\
    clusters self' = clusters self.
Proof.
  unfold recursive_bisection_with, pbind, lift, set_weights.
  destruct (np_ones indices) as [ones|e] eqn:Eo; [|discriminate].
  cbn [ordered_indices].
  destruct (ordered_indices self) as [l|] eqn:Ho; [|discriminate].
  set (s0 := {| weights := WArray ones; ordered_indices := Some l;
                clusters := clusters self |}).
  destruct (bisect_loop gcv (S (length l)) covariance [l] s0) as [[s1 [u|e]]|] eqn:El;
    try discriminate.
  destruct (bisect_loop_frame gcv covariance _ _ _ _ _ El) as [F1 F2].
  unfold weights_to_dict, pbind, get_weights, lift, set_weights.
  destruct indices as [|d ds].
  - (* a 0-d array is not iterable *)
    simpl in Eo. injection Eo as <-.
    assert (Hw0 : weights s0 = WArray (Scalar none)) by reflexivity.
    assert (s1 = s0) by (apply (bisect_loop_scalar _ _ _ _ _ u Hw0 El)).
    subst s1. simpl. discriminate.
  - destruct (np_ones_rows d ds ones Eo) as (rows & -> & Hrows).
    assert (Hw0 : weights s0 = WArray (Arr rows)) by reflexivity.
    destruct (bisect_loop_rows gcv covariance _ _ _ _ _ rows Hw0 El)
      as (rows' & Hw' & Hl').
    rewrite Hw'. simpl. intros H. injection H as <-. cbn [weights ordered_indices clusters].
    exists d, ds, (dict_of (combine assets rows')). repeat split.
    + pose proof (dict_of_length (combine assets rows')) as Hd.
      rewrite length_combine in Hd. lia.
    + rewrite F1. reflexivity.
    + rewrite F2. reflexivity.
Qed.

End BisectionReturn.

(** ** The depth of the bisection *)

Lemma max_len_le {A : Type} (wl : list (list A)) (n : nat) :
  (forall c, In c wl -> length c <= n) -> max_len wl <= n.
Proof.
  induction wl as [|c wl IH]; simpl; intros H; [lia|].
  apply Nat.max_lub; [apply H; now left|]. apply IH. intros; apply H; now right.
Qed.

Lemma max_len_split_half {A : Type} (wl : list (list A)) (k : nat) :
  max_len wl <= 2 * k -> max_len (split_worklist wl) <= k.
Proof.
  intros H. apply max_len_le. intros c Hc.
  rewrite split_worklist_flat in Hc. apply in_flat_map in Hc.
  destruct Hc as (p & Hp & Hc). pose proof (max_len_ge _ _ _ Hp) as Hm.
  unfold halves in Hc. destruct (1 <? length p) eqn:E; [|destruct Hc].
  apply Nat.ltb_lt in E. destruct (halves_long p E) as (_ & _ & L1 & L2 & _).
  pose proof (Nat.div_mod_eq (length p) 2) as Hq.
  pose proof (Nat.mod_upper_bound (length p) 2 ltac:(lia)) as Hr.
  destruct Hc as [<-|[<-|[]]]; [rewrite L1|rewrite L2].
  all: lia.
Qed.

Lemma split_worklist_short {A : Type} (wl : list (list A)) :
  max_len wl <= 1 -> split_worklist wl = [].
Proof.
  induction wl as [|c wl IH]; intros H; [reflexivity|].
  simpl in H. rewrite split_worklist_cons, halves_short by lia.
  apply IH. lia.
Qed.

(** X3.  The number of iterations of the [while] loop is logarithmic in
    the longest range: when no range of the worklist has more than [2^k]
    elements, the loop ends within [k + 1] iterations, whatever the pair
    step does. *)
Theorem bisection_depth_logarithmic {N : Numeric}
        (gcv : matrix -> list Z -> result num) (covariance : matrix) (k : nat) :
  forall (wl : list (list Z)) (self : hrp),
    max_len wl <= 2 ^ k ->
    exists out, bisect_loop gcv (S k) covariance wl self = Some out.
Proof.
  induction k as [|k IH]; intros wl self Hm.
  - destruct wl as [|c0 wl0]; [simpl; eauto|].
    rewrite bisect_loop_step, split_worklist_short by exact Hm.
    simpl. eauto.
  - destruct wl as [|c0 wl0]; [simpl; eauto|].
    rewrite bisect_loop_step. set (wl := c0 :: wl0) in *.
    destruct (bisect_pairs gcv covariance 0 (split_worklist wl) self) as [s1 [u|e]]; [|eauto].
    apply IH. apply max_len_split_half. rewrite Nat.pow_succ_r' in Hm. exact Hm.
Qed.

(** ** The allocation factor *)

(** X4.  In exact arithmetic, for positive cluster variances the
    allocation factor of hrp.py:172 is [rightVar / (leftVar + rightVar)]:
    it lies strictly between 0 and 1, it is above one half exactly when
    the left variance is the smaller one, and exchanging the two sides
    gives one minus it. *)
Theorem alloc_factor_inverse_risk (lv rv : R) :
  (0 < lv)%R -> (0 < rv)%R ->
  alloc_factor (N:=ideal) (Fin lv) (Fin rv) = Fin (rv / (lv + rv)) /\
  (0 < rv / (lv + rv) < 1)%R /\
  ((lv < rv)%R <-> (1 / 2 < rv / (lv + rv))%R) /\
  alloc_factor (N:=ideal) (Fin rv) (Fin lv) = Fin (1 - rv / (lv + rv)).
Proof.
  intros Hl Hr.
  assert (Hs : (0 < lv + rv)%R) by lra.
  assert (Hi : (0 < / (lv + rv))%R) by now apply Rinv_0_lt_compat.
  assert (E1 : (rv / (lv + rv) = 1 - lv / (lv + rv))%R) by (field; lra).
  assert (Hlt : (rv / (lv + rv) < 1)%R).
  { apply Rmult_lt_reg_r with (lv + rv)%R; [lra|].
    unfold Rdiv. rewrite Rmult_assoc, Rinv_l by lra. lra. }
  assert (Hpos : (0 < rv / (lv + rv))%R) by (unfold Rdiv; now apply Rmult_lt_0_compat).
  repeat split; try assumption.
  - unfold alloc_factor. cbn [nsub ndiv nadd none ideal Ideal.add].
    unfold Ideal.div. rewrite is_zero_false by lra.
    unfold Ideal.sub. cbn [Ideal.opp Ideal.add]. f_equal. lra.
  - intros H. apply Rmult_lt_reg_r with (lv + rv)%R; [lra|].
    unfold Rdiv. rewrite (Rmult_assoc rv), Rinv_l by lra. lra.
  - intros H. apply Rmult_lt_compat_r with (r := (lv + rv)%R) in H; [|lra].
    unfold Rdiv in H. rewrite (Rmult_assoc rv), Rinv_l in H by lra. lra.
  - unfold alloc_factor. cbn [nsub ndiv nadd none ideal Ideal.add].
    unfold Ideal.div. rewrite is_zero_false by lra.
    unfold Ideal.sub. cbn [Ideal.opp Ideal.add]. f_equal. field. lra.
Qed.

Lemma alloc_factor_inverse_risk_witness :
  alloc_factor (N:=ideal) (Fin 1) (Fin 3) = Fin (3 / (1 + 3)) /\
  (0 < 3 / (1 + 3) < 1)%R /\
  ((1 < 3)%R <-> (1 / 2 < 3 / (1 + 3))%R) /\
  alloc_factor (N:=ideal) (Fin 3) (Fin 1) = Fin (1 - 3 / (1 + 3)).
Proof. apply (alloc_factor_inverse_risk 1 3); lra. Defined.

Lemma SFeqb_refl_finite (s : bool) (m : positive) (e : Z) :
  SFeqb (S754_finite s m e) (S754_finite s m e) = true.
Proof.
  unfold SFeqb, SFcompare.
  destruct s; rewrite Z.compare_refl, ?Pos.compare_cont_refl, ?Pos.compare_refl.
  all: try reflexivity.
  all: rewrite ?Pos.compare_cont_refl; reflexivity.
Qed.

Lemma is_nan_SF (x : float) : PrimFloat.is_nan x = true -> Prim2SF x = S754_nan.
Proof.
  unfold PrimFloat.is_nan. rewrite eqb_spec.
  destruct (Prim2SF x) as [s|s| |s m e]; try reflexivity.
  - simpl. discriminate.
  - destruct s; simpl; discriminate.
  - rewrite SFeqb_refl_finite. discriminate.
Qed.

(** X5.  In binary64 a NaN cluster variance on either side makes the
    allocation factor NaN: hrp.py:172 passes it on to both halves. *)
Theorem alloc_factor_nan_propagates (lv rv : @num f64) :
  nis_nan lv = true \/ nis_nan rv = true ->
  nis_nan (alloc_factor lv rv) = true.
Proof.
  intros H. apply SF_nan_is_nan.
  unfold alloc_factor. cbn [nsub ndiv nadd none f64]. unfold PrimFloat.one.
  rewrite sub_spec, div_spec, add_spec, SF_of_one.
  destruct H as [H|H]; apply is_nan_SF in H; rewrite H.
  - reflexivity.
  - destruct (Prim2SF lv) as [s|s| |s m e]; reflexivity.
Qed.

Lemma alloc_factor_nan_propagates_witness :
  nis_nan (alloc_factor (N:=f64) PrimFloat.nan 1%float) = true.
Proof.
  apply (alloc_factor_nan_propagates PrimFloat.nan 1%float). left. reflexivity.
Defined.

(** ** The distance *)

Section DistanceOrder.

Local Open Scope R_scope.

Lemma rint_small (a : R) : -1 / 2 < a < 1 / 2 -> Ideal.rint a = 0%Z.
Proof.
  intros [H1 H2]. unfold Ideal.rint.
  destruct (Rlt_dec a 0) as [Hn|Hn].
  - assert (Ef : Int_part a = (-1)%Z).
    { symmetry. apply Int_part_spec. simpl. lra. }
    rewrite Ef. simpl IZR.
    destruct (Rlt_dec (a - -1) (1 / 2)); [lra|].
    destruct (Rlt_dec (1 / 2) (a - -1)); [reflexivity|lra].
  - assert (Ef : Int_part a = 0%Z).
    { symmetry. apply Int_part_spec. simpl. lra. }
    rewrite Ef. simpl IZR.
    destruct (Rlt_dec (a - 0) (1 / 2)); [reflexivity|lra].
Qed.

Lemma Int_part_mono (a b : R) : a <= b -> (Int_part a <= Int_part b)%Z.
Proof.
  intros H. destruct (base_Int_part a) as [A1 A2]. destruct (base_Int_part b) as [B1 B2].
  apply Zlt_succ_le. apply lt_IZR. rewrite succ_IZR. lra.
Qed.

Lemma rint_near (a : R) :
  (Int_part a <= Ideal.rint a <= Int_part a + 1)%Z /\
  (Ideal.rint a = (Int_part a + 1)%Z -> 1 / 2 <= a - IZR (Int_part a)).
Proof.
  unfold Ideal.rint. set (f := Int_part a).
  destruct (Rlt_dec (a - IZR f) (1 / 2)); [split; [lia|intros; lia]|].
  destruct (Rlt_dec (1 / 2) (a - IZR f)); [split; [lia|intros; lra]|].
  destruct (Z.even f); split; try lia; intros; lra.
Qed.

Lemma rint_mono (a b : R) : a <= b -> (Ideal.rint a <= Ideal.rint b)%Z.
Proof.
  intros H. pose proof (Int_part_mono a b H) as Hf.
  destruct (rint_near a) as [[A1 A2] A3]. destruct (rint_near b) as [[B1 B2] B3].
  destruct (Z.eq_dec (Int_part a) (Int_part b)) as [E|E]; [|lia].
  destruct (Z.eq_dec (Ideal.rint a) (Int_part a + 1)) as [Ea|Ea]; [|lia].
  specialize (A3 Ea).
  (* [a] rounds up; [b], at least as far from the common floor, does too *)
  destruct (Req_dec_T a b) as [->|Hab]; [lia|].
  assert (Hb : 1 / 2 < b - IZR (Int_part b)) by (rewrite <- E; lra).
  unfold Ideal.rint at 2.
  destruct (Rlt_dec (b - IZR (Int_part b)) (1 / 2)); [lra|].
  destruct (Rlt_dec (1 / 2) (b - IZR (Int_part b))); [lia|lra].
Qed.

End DistanceOrder.

(** X6.  The rounding of hrp.py:77 absorbs noise around a correlation of
    1: in exact arithmetic, a correlation entry within 0.000005 of 1, on
    either side, gives the distance 0 (and not NaN). *)
Theorem distance_entry_noise_is_zero (c : R) :
  (1 - 5 / 1000000 < c < 1 + 5 / 1000000)%R ->
  distance_entry (N:=ideal) (Fin c) = Fin 0.
Proof.
  intros H. rewrite distance_entry_fin, rint_small by lra.
  unfold Ideal.sqrt. simpl IZR.
  replace (0 / 100000 / 2)%R with 0%R by lra.
  rewrite is_neg_false by lra. now rewrite sqrt_0.
Qed.

Lemma distance_entry_noise_is_zero_witness :
  distance_entry (N:=ideal) (Fin (1 + 1 / 1000000)) = Fin 0.
Proof. apply (distance_entry_noise_is_zero (1 + 1 / 1000000)). lra. Defined.

(** X7.  In exact arithmetic the distance of hrp.py:77 never grows with
    the correlation: of two correlation entries between -1 and 1, the
    larger one has the smaller or equal distance. *)
Theorem distance_entry_antitone (c1 c2 : R) :
  (-1 <= c1)%R -> (c1 <= c2)%R -> (c2 <= 1)%R ->
  exists d1 d2 : R,
    distance_entry (N:=ideal) (Fin c1) = Fin d1 /\
    distance_entry (N:=ideal) (Fin c2) = Fin d2 /\
    (d2 <= d1)%R.
Proof.
  intros H1 H12 H2. rewrite !distance_entry_fin.
  assert (Hm : (Ideal.rint ((1 + - c2) * 100000) <= Ideal.rint ((1 + - c1) * 100000))%Z)
    by (apply rint_mono; lra).
  assert (Hp : (0 <= Ideal.rint ((1 + - c2) * 100000))%Z) by (apply rint_ge; simpl; lra).
  apply IZR_le in Hm, Hp.
  set (x1 := IZR (Ideal.rint ((1 + - c1) * 100000))) in *.
  set (x2 := IZR (Ideal.rint ((1 + - c2) * 100000))) in *.
  simpl in Hp.
  unfold Ideal.sqrt. rewrite !is_neg_false by lra.
  eexists _, _. split; [reflexivity|]. split; [reflexivity|].
  apply sqrt_le_1_alt. lra.
Qed.

Lemma distance_entry_antitone_witness :
  exists d1 d2 : R,
    distance_entry (N:=ideal) (Fin 0) = Fin d1 /\
    distance_entry (N:=ideal) (Fin (1 / 2)) = Fin d2 /\
    (d2 <= d1)%R.
Proof. apply (distance_entry_antitone 0 (1 / 2)); lra. Defined.

(** ** The long/short adjustment on exact weights *)

Section LongShortExact.

Local Open Scope R_scope.

Local Abbreviation short := (is_short (N:=ideal)).
Local Abbreviation buy := (is_buy (N:=ideal)).

(** The result, side by side, for the sums [S] of the short weights and
    [B] of the long weights. *)
Let adjusted (S B : R) (side : list xreal) (rs : list R) : list R :=
  map (fun sx : xreal * R =>
         if short (fst sx) then snd sx / S * - (1 / 2)
         else if buy (fst sx) then snd sx / B * (1 / 2)
         else snd sx)
      (combine side rs).

Lemma mask_map_fin_or_none (p : xreal -> bool) (S c : R) (side : list xreal) (rs : list R) :
  length side = length rs ->
  (existsb p side = true -> S <> 0) ->
  mask_map (N:=ideal) p (fun x => nmul (ndiv x (Fin S)) (Fin c)) side (map Fin rs)
  = map Fin (rmap_where p (fun r => r / S * c) side rs).
Proof.
  intros Hlen HS. destruct (existsb p side) eqn:E.
  - apply mask_map_fin. now apply HS.
  - rewrite mask_map_none by (try assumption; now rewrite length_map).
    now rewrite rmap_where_none.
Qed.

Lemma long_short_exact_form (rs : list R) (side : list xreal) :
  length side = length rs ->
  (existsb short side = true -> rsum_where short side rs <> 0) ->
  (existsb buy side = true -> rsum_where buy side rs <> 0) ->
  build_long_short_portfolio (N:=ideal) (map Fin rs) side
  = Ok (map Fin (adjusted (rsum_where short side rs) (rsum_where buy side rs) side rs)).
Proof.
  intros Hlen HS HB.
  set (S := rsum_where short side rs) in *. set (B := rsum_where buy side rs) in *.
  set (w1 := rmap_where short (fun r => r / S * - (1 / 2)) side rs).
  assert (Hlen1 : length side = length w1).
  { unfold w1. now rewrite rmap_where_length. }
  assert (HB1 : rsum_where buy side w1 = B).
  { unfold w1. apply rsum_rmap_other. apply buy_not_short. }
  rewrite build_long_short_closed_form by (now rewrite length_map).
  cbv zeta. rewrite side_sum_fin. fold S.
  change (@nopp ideal (@nhalf ideal)) with (Fin (- (1 / 2))).
  rewrite (mask_map_fin_or_none short S (- (1 / 2)) side rs Hlen HS). fold w1.
  rewrite side_sum_fin, HB1. change (@nhalf ideal) with (Fin (1 / 2)).
  rewrite (mask_map_fin_or_none buy B (1 / 2) side w1 Hlen1 HB).
  unfold adjusted, w1. f_equal. f_equal. symmetry.
  apply (rmap_where_short_then_buy (fun r => r / S * - (1 / 2)) (fun r => r / B * (1 / 2))).
Qed.

Lemma adjusted_nth (S B : R) (side : list xreal) :
  forall (rs : list R) (i : nat) (s : xreal) (r : R),
    nth_error side i = Some s -> nth_error rs i = Some r ->
    nth_error (adjusted S B side rs) i =
    Some (if short s then r / S * - (1 / 2)
          else if buy s then r / B * (1 / 2) else r).
Proof.
  unfold adjusted.
  induction side as [|s0 side IH]; intros [|r0 rs] [|i] s r Hs Hr; try discriminate.
  - simpl in *. injection Hs as <-. injection Hr as <-. reflexivity.
  - simpl in *. now apply IH.
Qed.

Lemma rsum_adjusted_short (S B : R) (side : list xreal) (rs : list R) :
  rsum_where short side (adjusted S B side rs) = rsum_where short side rs / S * - (1 / 2).
Proof.
  unfold adjusted.
  rewrite (rmap_where_short_then_buy (fun r => r / S * - (1 / 2)) (fun r => r / B * (1 / 2))).
  rewrite rsum_rmap_other by apply short_not_buy. apply rsum_rmap_same.
Qed.

Lemma rsum_adjusted_buy (S B : R) (side : list xreal) (rs : list R) :
  rsum_where buy side (adjusted S B side rs) = rsum_where buy side rs / B * (1 / 2).
Proof.
  unfold adjusted.
  rewrite (rmap_where_short_then_buy (fun r => r / S * - (1 / 2)) (fun r => r / B * (1 / 2))).
  rewrite rsum_rmap_same. f_equal. f_equal. apply rsum_rmap_other. apply buy_not_short.
Qed.

Lemma exists_pos_sum (p : xreal -> bool) (side : list xreal) (rs : list R) :
  length side = length rs -> (forall r, In r rs -> 0 < r) ->
  existsb p side = true -> rsum_where p side rs <> 0.
Proof.
  intros Hlen Hpos Hex. pose proof (rsum_where_pos p side rs Hlen Hpos Hex). lra.
Qed.

(** X8.  The guard of hrp.py:123 never skips the adjustment: with no
    asset on the short side (the default side vector), positive weights
    and at least one asset on the long side, every long weight is divided
    by the sum of the long weights and halved, so the long weights sum to
    0.5 whatever they summed to before. *)
Theorem long_only_is_rescaled (rs : list R) (side : list xreal) :
  length side = length rs ->
  (forall r, In r rs -> 0 < r) ->
  existsb short side = false ->
  existsb buy side = true ->
  let B := rsum_where buy side rs in
  let out := rmap_where buy (fun r => r / B * (1 / 2)) side rs in
  build_long_short_portfolio (N:=ideal) (map Fin rs) side = Ok (map Fin out) /\
  side_sum buy side (map Fin out) = Fin (1 / 2).
Proof.
  intros Hlen Hpos Hs Hb B out.
  assert (HB : 0 < B) by now apply rsum_where_pos.
  split.
  - rewrite long_short_exact_form; try assumption.
    + f_equal. f_equal. unfold adjusted, out.
      rewrite (rmap_where_short_then_buy
                 (fun r => r / rsum_where short side rs * - (1 / 2))
                 (fun r => r / B * (1 / 2))).
      now rewrite (rmap_where_none short).
    + rewrite Hs. discriminate.
    + intros _. unfold B in HB. lra.
  - rewrite side_sum_fin. unfold out. rewrite rsum_rmap_same. fold B. f_equal. field. lra.
Qed.

(** X9.  On positive weights with a side vector of the same length, the
    adjustment gives every short asset a negative weight, every long asset
    a positive weight, and returns the weight of an asset whose side is
    neither -1 nor +1 unchanged. *)
Theorem long_short_signs (rs : list R) (side : list xreal) :
  length side = length rs ->
  (forall r, In r rs -> 0 < r) ->
  exists out : list R,
    build_long_short_portfolio (N:=ideal) (map Fin rs) side = Ok (map Fin out) /\
    length out = length rs /\
    forall i s r, nth_error side i = Some s -> nth_error rs i = Some r ->
      exists o, nth_error out i = Some o /\
                (short s = true -> o < 0) /\
                (buy s = true -> 0 < o) /\
                (short s = false -> buy s = false -> o = r).
Proof.
  intros Hlen Hpos.
  set (S := rsum_where short side rs). set (B := rsum_where buy side rs).
  exists (adjusted S B side rs). split; [|split].
  - apply long_short_exact_form; try assumption; now apply exists_pos_sum.
  - unfold adjusted. rewrite length_map, length_combine. lia.
  - intros i s r Hs Hr. rewrite (adjusted_nth S B side rs i s r Hs Hr).
    eexists. split; [reflexivity|].
    assert (Hr0 : 0 < r) by (apply Hpos; eapply nth_error_In; eassumption).
    assert (Hex : forall p : xreal -> bool, p s = true -> existsb p side = true).
    { intros p Hp. apply existsb_exists. exists s. split; [|assumption].
      eapply nth_error_In; eassumption. }
    repeat split.
    + intros Hsh. rewrite Hsh.
      assert (0 < S) by (apply rsum_where_pos; auto).
      assert (0 < r / S) by (apply Rdiv_lt_0_compat; assumption).
      nra.
    + intros Hb. rewrite (buy_not_short s Hb), Hb.
      assert (0 < B) by (apply rsum_where_pos; auto).
      assert (0 < r / B) by (apply Rdiv_lt_0_compat; assumption).
      nra.
    + intros Hsh Hb. now rewrite Hsh, Hb.
Qed.

Lemma map_combine_fixed (g : xreal * R -> R) (side : list xreal) :
  forall l : list R,
    length side = length l ->
    (forall s r, In (s, r) (combine side l) -> g (s, r) = r) ->
    map g (combine side l) = l.
Proof.
  induction side as [|s side IH]; intros [|r l] Hl Hg; try discriminate; [reflexivity|].
  simpl. f_equal.
  - apply Hg. now left.
  - apply IH; [simpl in Hl; lia|]. intros s' r' Hin. apply Hg. now right.
Qed.

(** X10.  In exact arithmetic the adjustment is idempotent on positive
    weights: applied to its own result, it returns that result. *)
Theorem long_short_idempotent (rs : list R) (side : list xreal) :
  length side = length rs ->
  (forall r, In r rs -> 0 < r) ->
  exists out : list R,
    build_long_short_portfolio (N:=ideal) (map Fin rs) side = Ok (map Fin out) /\
    build_long_short_portfolio (N:=ideal) (map Fin out) side = Ok (map Fin out).
Proof.
  intros Hlen Hpos.
  set (S := rsum_where short side rs). set (B := rsum_where buy side rs).
  set (out := adjusted S B side rs).
  assert (Hlo : length side = length out).
  { unfold out, adjusted. rewrite length_map, length_combine. lia. }
  assert (HS : existsb short side = true -> rsum_where short side out = - (1 / 2)).
  { intros Hex. assert (0 < S) by (apply rsum_where_pos; auto).
    unfold out. rewrite rsum_adjusted_short. fold S. field. lra. }
  assert (HB : existsb buy side = true -> rsum_where buy side out = 1 / 2).
  { intros Hex. assert (0 < B) by (apply rsum_where_pos; auto).
    unfold out. rewrite rsum_adjusted_buy. fold B. field. lra. }
  exists out. split.
  - apply long_short_exact_form; try assumption; now apply exists_pos_sum.
  - rewrite long_short_exact_form; try assumption.
    + f_equal. f_equal. unfold adjusted at 1.
      apply map_combine_fixed; [assumption|].
      intros s r Hin. cbn [fst snd].
      assert (Hs : In s side) by (apply in_combine_l in Hin; exact Hin).
      destruct (short s) eqn:Es.
      * rewrite HS by (apply existsb_exists; eauto). field.
      * destruct (buy s) eqn:Eb; [|reflexivity].
        rewrite HB by (apply existsb_exists; eauto). field.
    + intros Hex. rewrite (HS Hex). lra.
    + intros Hex. rewrite (HB Hex). lra.
Qed.

End LongShortExact.

(** ** The cluster variance *)

(** X11.  In exact arithmetic, hrp.py:145-147 applied to the 1x1
    covariance of a single asset give the variance of that asset when it
    is not zero, and NaN when it is zero (the inverse-variance weight is
    infinite and its normalisation is [inf / inf]). *)
Theorem cluster_variance_single_asset (v : R) :
  (v <> 0%R -> inverse_variance_form (N:=ideal) [[Fin v]] = Fin v) /\
  inverse_variance_form (N:=ideal) [[Fin 0]] = NaN.
Proof.
  split.
  - intros Hv. unfold inverse_variance_form, np_diag, multi_dot3, matvec, dot, np_sum.
    cbn [np_diag_from nth_error map combine fold_left nadd nmul ndiv none nzero ideal].
    assert (Hi : (1 / v <> 0)%R).
    { unfold Rdiv. rewrite Rmult_1_l. now apply Rinv_neq_0_compat. }
    unfold Ideal.div. rewrite (is_zero_false v Hv). cbn [Ideal.add].
    rewrite is_zero_false by (rewrite Rplus_0_l; exact Hi).
    cbn [Ideal.mul Ideal.add]. f_equal. field. assumption.
  - unfold inverse_variance_form, np_diag, multi_dot3, matvec, dot, np_sum.
    cbn [np_diag_from nth_error map combine fold_left nadd nmul ndiv none nzero ideal].
    assert (E : Ideal.div (Fin 1) (Fin 0) = PInf).
    { unfold Ideal.div, Ideal.is_zero, Ideal.is_neg.
      destruct (Req_dec_T 0 0) as [_|H]; [|contradiction].
      destruct (Req_dec_T 1 0) as [H|_]; [lra|].
      destruct (Rlt_dec 1 0) as [H|_]; [lra|reflexivity]. }
    rewrite !E. reflexivity.
Qed.

Lemma cluster_variance_single_asset_witness :
  inverse_variance_form (N:=ideal) [[Fin 4]] = Fin 4.
Proof.
  apply (proj1 (cluster_variance_single_asset 4)). lra.
Defined.

Lemma mapM_raises {A B : Type} (f : A -> result B) (l : list A) :
  (exists a e, In a l /\ f a = Raise e) -> exists e, mapM f l = Raise e.
Proof.
  induction l as [|a l IH]; intros (a0 & e & Hin & Hf); [destruct Hin|].
  simpl. destruct (f a) as [b|e'] eqn:Ea; simpl; [|eauto].
  destruct Hin as [->|Hin]; [congruence|].
  destruct IH as [e'' ->]; [eauto|]. simpl. eauto.
Qed.

(** X12.  [_get_cluster_variance] checks its indices before anything
    else: when an index of the range is outside the covariance matrix
    (below [-n] or from [n] on, for [n] rows), it raises [IndexError] for
    an index of the range, not the [NameError] of the next line. *)
Theorem cluster_variance_index_error {N : Numeric}
        (covariance_matrix : matrix) (cluster_items : list Z) (i : Z) :
  In i cluster_items ->
  ~ (- Z.of_nat (length covariance_matrix) <= i < Z.of_nat (length covariance_matrix))%Z ->
  exists j, In j cluster_items /\
            _get_cluster_variance covariance_matrix cluster_items = Raise (IndexError j).
Proof.
  intros Hin Hout. unfold _get_cluster_variance, ix_.
  set (row_of := fun i : Z =>
         r <- py_index (length covariance_matrix) i ;;
         let row := nth r covariance_matrix [] in
         mapM (fun j => c <- py_index (length row) j ;; Ok (nth c row nzero)) cluster_items).
  assert (Hfail : exists e, row_of i = Raise e).
  { unfold row_of. destruct (py_index (length covariance_matrix) i) as [r|e] eqn:E; [|simpl; eauto].
    exfalso. apply Hout. unfold py_index in E.
    destruct ((0 <=? i) && (i <? Z.of_nat (length covariance_matrix)))%Z eqn:E1.
    - apply andb_true_iff in E1. lia.
    - destruct ((- Z.of_nat (length covariance_matrix) <=? i) && (i <? 0))%Z eqn:E2;
        [|discriminate].
      apply andb_true_iff in E2. lia. }
  destruct Hfail as [e0 He0].
  destruct (mapM_raises row_of cluster_items) as [e He]; [eauto|].
  rewrite He. cbn [bind].
  destruct (mapM_raise_from _ _ _ He) as (a & Ha & Hra).
  unfold row_of in Hra.
  destruct (py_index (length covariance_matrix) a) as [r|e'] eqn:Er; cbn [bind] in Hra.
  - destruct (mapM_raise_from _ _ _ Hra) as (b & Hb & Hrb).
    destruct (py_index (length (nth r covariance_matrix [])) b) as [c|e'] eqn:Ec;
      cbn [bind] in Hrb; [discriminate|].
    injection Hrb as ->. destruct (py_index_raise _ _ _ Ec) as [-> _]. eauto.
  - injection Hra as ->. destruct (py_index_raise _ _ _ Er) as [-> _]. eauto.
Qed.

Lemma cluster_variance_index_error_witness :
  exists j, In j [0; 2]%Z /\
            _get_cluster_variance (N:=f64) [[1%float; 0%float]; [0%float; 1%float]] [0; 2]%Z
            = Raise (IndexError j).
Proof.
  apply (cluster_variance_index_error (N:=f64) _ [0; 2]%Z 2%Z).
  - right. now left.
  - simpl. lia.
Defined.

(** ** The final dict *)

Lemma dict_set_fresh {V : Type} (k : string) (v : V) (d : list (string * V)) :
  ~ In k (map fst d) -> dict_set k v d = d ++ [(k, v)].
Proof.
  induction d as [|[k' v'] d IH]; simpl; intros H; [reflexivity|].
  destruct (String.eqb k k') eqn:E.
  - apply String.eqb_eq in E. subst. elim H. now left.
  - f_equal. apply IH. intros Hin. apply H. now right.
Qed.

Lemma dict_of_distinct {V : Type} (pairs : list (string * V)) :
  NoDup (map fst pairs) -> dict_of pairs = pairs.
Proof.
  unfold dict_of.
  assert (H : forall d, NoDup (map fst (d ++ pairs)) ->
                        fold_left (fun d kv => dict_set (fst kv) (snd kv) d) pairs d
                        = d ++ pairs).
  { induction pairs as [|[k v] pairs IH]; intros d Hnd; simpl; [now rewrite app_nil_r|].
    rewrite dict_set_fresh.
    - rewrite IH; rewrite <- app_assoc; [reflexivity|exact Hnd].
    - rewrite map_app in Hnd. simpl in Hnd. apply NoDup_remove_2 in Hnd.
      intros Hin. apply Hnd. apply in_or_app. now left. }
  intros Hnd. apply (H [] Hnd).
Qed.

Lemma combine_fst_sub {A B : Type} (l : list A) (l' : list B) :
  NoDup l -> NoDup (map fst (combine l l')).
Proof.
  revert l'. induction l as [|a l IH]; intros l' H; [constructor|].
  destruct l' as [|b l']; [constructor|].
  inversion H as [|? ? Ha Hl]; subst. simpl. constructor.
  - intros Hin. apply Ha. apply in_map_iff in Hin.
    destruct Hin as ([a' b'] & E & Hin). simpl in E. subst a'.
    now apply in_combine_l in Hin.
  - now apply IH.
Qed.

(** X13.  hrp.py:179 pairs the asset names with the rows of the weights
    array by position: with distinct asset names the stored [dict] is
    exactly [zip(assets, rows)], in that order, cut at the shorter of the
    two; nothing else of [self] changes. *)
Theorem weights_dict_by_position {N : Numeric} (assets : list string)
        (rows : list ndarray) (self : hrp) :
  NoDup assets ->
  weights self = WArray (Arr rows) ->
  weights_to_dict assets self =
  ({| weights := WDict (combine assets rows);
      ordered_indices := ordered_indices self;
      clusters := clusters self |}, Ok tt).
Proof.
  intros Hnd Hw. unfold weights_to_dict, pbind, get_weights, lift, set_weights.
  rewrite Hw. simpl. rewrite dict_of_distinct; [reflexivity|].
  now apply combine_fst_sub.
Qed.

Lemma weights_dict_by_position_witness :
  weights_to_dict (N:=f64) ["A"; "B"; "C"]%string
    {| weights := WArray (Arr [Scalar (N:=f64) 0.5%float; Scalar (N:=f64) 0.5%float]);
       ordered_indices := None; clusters := None |}
  = ({| weights := WDict [("A"%string, Scalar (N:=f64) 0.5%float);
                          ("B"%string, Scalar (N:=f64) 0.5%float)];
        ordered_indices := None; clusters := None |}, Ok tt).
Proof.
  apply (weights_dict_by_position (N:=f64) ["A"; "B"; "C"]%string
           [Scalar (N:=f64) 0.5%float; Scalar (N:=f64) 0.5%float]).
  - repeat constructor; simpl; intuition discriminate.
  - reflexivity.
Defined.

(** ** The pair step and the weights of the loop *)

(** X14.  One successful pair step of hrp.py:165-176, whatever
    [self._get_cluster_variance] is: both cluster variances were returned,
    the rows of [self.weights] named by the left range only are multiplied
    by the allocation factor of the two variances, the rows named by the
    right range only by one minus it, and every other row is unchanged. *)
Theorem pair_step_scales_halves {N : Numeric}
        (gcv : matrix -> list Z -> result num) (covariance : matrix)
        (left_cluster right_cluster : list Z) (self self' : hrp) (rows : list ndarray) :
  weights self = WArray (Arr rows) ->
  bisect_pair gcv covariance left_cluster right_cluster self = (self', Ok tt) ->
  exists lv rv rows',
    gcv covariance left_cluster = Ok lv /\
    gcv covariance right_cluster = Ok rv /\
    weights self' = WArray (Arr rows') /\
    length rows' = length rows /\
    forall j,
      (names (length rows) left_cluster j -> ~ names (length rows) right_cluster j ->
       nth_error rows' j = option_map (scale (alloc_factor lv rv)) (nth_error rows j)) /\
      (~ names (length rows) left_cluster j -> names (length rows) right_cluster j ->
       nth_error rows' j =
       option_map (scale (nsub none (alloc_factor lv rv))) (nth_error rows j)) /\
      (~ names (length rows) left_cluster j -> ~ names (length rows) right_cluster j ->
       nth_error rows' j = nth_error rows j).
Proof. apply bisect_pair_ok. Qed.

Lemma pair_step_scales_halves_witness :
  exists (lv rv : @num f64) (rows' : list (@ndarray f64)),
    @WArray f64 (Arr [Scalar (N:=f64) 0.75%float; Scalar (N:=f64) 0.25%float;
                      Scalar (N:=f64) 0.25%float])
    = WArray (Arr rows') /\
    length rows' = 3 /\
    forall j,
      names 3 [0%Z] j -> ~ names 3 [1; 2]%Z j ->
      nth_error rows' j
      = option_map (@scale f64 (@alloc_factor f64 lv rv))
                   (nth_error [Scalar (N:=f64) 1%float; Scalar (N:=f64) 1%float;
                               Scalar (N:=f64) 1%float] j).
Proof.
  destruct (pair_step_scales_halves (N:=f64)
              (fun _ c => if (length c =? 1)%nat then Ok 1%float else Ok 3%float) []
              [0%Z] [1; 2]%Z
              {| weights := WArray (Arr [Scalar (N:=f64) 1%float; Scalar (N:=f64) 1%float;
                                         Scalar (N:=f64) 1%float]);
                 ordered_indices := None; clusters := None |}
              {| weights := WArray (Arr [Scalar (N:=f64) 0.75%float;
                                         Scalar (N:=f64) 0.25%float;
                                         Scalar (N:=f64) 0.25%float]);
                 ordered_indices := None; clusters := None |}
              [Scalar (N:=f64) 1%float; Scalar (N:=f64) 1%float; Scalar (N:=f64) 1%float]
              eq_refl eq_refl)
    as (lv & rv & rows' & _ & _ & Hw & Hl & Hj).
  exists lv, rv, rows'. split; [exact Hw|]. split; [exact Hl|].
  intros j. apply (Hj j).
Defined.



(** ** Instances *)


Lemma recursive_bisection_returns_witness :
  exists d ds dict,
    [2; 0]%Z = d :: ds /\
    @WDict f64 [("A"%string, Arr []); ("B"%string, Arr [])] = WDict dict /\
    length dict <= Nat.min 2 (Z.to_nat d).
Proof.
  destruct (recursive_bisection_returns (N:=f64) (fun _ _ => Ok 1%float) []
              [2; 0]%Z ["A"; "B"]%string
              {| weights := WList []; ordered_indices := Some [1; 0]%Z; clusters := None |}
              {| weights := WDict [("A"%string, Arr []); ("B"%string, Arr [])];
                 ordered_indices := Some [1; 0]%Z; clusters := None |}
              eq_refl)
    as (d & ds & dict & E & Hw & Hl & _).
  exists d, ds, dict. auto.
Defined.

Lemma bisection_depth_logarithmic_witness :
  exists out,
    bisect_loop (N:=f64) _get_cluster_variance 3 [] [[0; 1; 2; 3]]%Z init = Some out.
Proof.
  apply (bisection_depth_logarithmic (N:=f64) _get_cluster_variance [] 2).
  simpl. lia.
Defined.

Lemma long_short_side_tests :
  is_short (N:=ideal) (Fin (- (1))) = true /\ is_buy (N:=ideal) (Fin (- (1))) = false /\
  is_short (N:=ideal) (Fin 1) = false /\ is_buy (N:=ideal) (Fin 1) = true.
Proof.
  unfold is_short, is_buy. cbn [neqb nopp none ideal Ideal.opp Ideal.eqb].
  destruct (Req_dec_T (- (1)) (- (1))) as [_|H]; [|contradiction].
  destruct (Req_dec_T (- (1)) 1) as [H|_]; [lra|].
  destruct (Req_dec_T 1 (- (1))) as [H|_]; [lra|].
  destruct (Req_dec_T 1 1) as [_|H]; [|contradiction].
  auto.
Defined.

Lemma long_only_is_rescaled_witness :
  exists out : list R,
    build_long_short_portfolio (N:=ideal) (map Fin [(1 / 4)%R; (3 / 4)%R]) [Fin 1; Fin 1]
    = Ok (map Fin out) /\
    side_sum (is_buy (N:=ideal)) [Fin 1; Fin 1] (map Fin out) = Fin (1 / 2).
Proof.
  destruct long_short_side_tests as (_ & _ & Hs & Hb).
  assert (Hpos : forall r, In r [(1 / 4)%R; (3 / 4)%R] -> (0 < r)%R).
  { intros r [<-|[<-|[]]]; lra. }
  assert (Hshort : existsb (is_short (N:=ideal)) [Fin 1; Fin 1] = false).
  { cbn [existsb]. now rewrite Hs. }
  assert (Hbuy : existsb (is_buy (N:=ideal)) [Fin 1; Fin 1] = true).
  { cbn [existsb]. now rewrite Hb. }
  destruct (long_only_is_rescaled [(1 / 4)%R; (3 / 4)%R] [Fin 1; Fin 1]
              eq_refl Hpos Hshort Hbuy) as [H1 H2].
  eexists. split; [exact H1|exact H2].
Defined.

Lemma long_short_signs_witness :
  exists out : list R,
    build_long_short_portfolio (N:=ideal) (map Fin [(1 / 4)%R; (3 / 4)%R])
                               [Fin (- (1)); Fin 1]
    = Ok (map Fin out) /\
    length out = 2.
Proof.
  assert (Hpos : forall r, In r [(1 / 4)%R; (3 / 4)%R] -> (0 < r)%R).
  { intros r [<-|[<-|[]]]; lra. }
  destruct (long_short_signs [(1 / 4)%R; (3 / 4)%R] [Fin (- (1)); Fin 1] eq_refl Hpos)
    as (out & H1 & H2 & _).
  exists out. auto.
Defined.

Lemma long_short_idempotent_witness :
  exists out : list R,
    build_long_short_portfolio (N:=ideal) (map Fin [(1 / 4)%R; (3 / 4)%R])
                               [Fin (- (1)); Fin 1]
    = Ok (map Fin out) /\
    build_long_short_portfolio (N:=ideal) (map Fin out) [Fin (- (1)); Fin 1]
    = Ok (map Fin out).
Proof.
  assert (Hpos : forall r, In r [(1 / 4)%R; (3 / 4)%R] -> (0 < r)%R).
  { intros r [<-|[<-|[]]]; lra. }
  exact (long_short_idempotent [(1 / 4)%R; (3 / 4)%R] [Fin (- (1)); Fin 1] eq_refl Hpos).
Defined.



(** ** The adjustment in any arithmetic *)

Lemma mask_map_nth {N : Numeric} (p : num -> bool) (f : num -> num) (side : list num) :
  forall (w : list num) (i : nat) (s x : num),
    nth_error side i = Some s -> nth_error w i = Some x ->
    nth_error (mask_map p f side w) i = Some (if p s then f x else x).
Proof.
  unfold mask_map.
  induction side as [|s0 side IH]; intros [|x0 w] [|i] s x Hs Hx; try discriminate.
  - simpl in *. injection Hs as <-. injection Hx as <-. reflexivity.
  - simpl in *. now apply IH.
Qed.

(** X17.  In any arithmetic, binary64 included: with a side vector as
    long as the weights, [build_long_short_portfolio] never raises, returns
    as many weights as it was given, and returns unchanged the weight of
    every asset whose side is neither -1 nor +1. *)
Theorem long_short_keeps_neutral {N : Numeric} (w side : list num) :
  length side = length w ->
  exists out,
    build_long_short_portfolio w side = Ok out /\
    length out = length w /\
    forall i s x,
      nth_error side i = Some s -> nth_error w i = Some x ->
      is_short s = false -> is_buy s = false ->
      nth_error out i = Some x.
Proof.
  intros Hlen. rewrite build_long_short_closed_form by assumption. cbv zeta.
  eexists. split; [reflexivity|]. split.
  - rewrite !mask_map_length; try assumption. now rewrite mask_map_length.
  - intros i s x Hs Hx Hsh Hb.
    erewrite mask_map_nth; [|exact Hs|].
    + rewrite Hb. reflexivity.
    + erewrite mask_map_nth; [|exact Hs|exact Hx]. now rewrite Hsh.
Qed.

Lemma long_short_keeps_neutral_witness :
  exists out,
    build_long_short_portfolio (N:=f64) [0.5%float; 0.25%float; 0.25%float]
                               [1%float; 0%float; (-1)%float]
    = Ok out /\
    length out = 3 /\
    nth_error out 1 = Some 0.25%float.
Proof.
  destruct (long_short_keeps_neutral (N:=f64) [0.5%float; 0.25%float; 0.25%float]
              [1%float; 0%float; (-1)%float] eq_refl) as (out & H1 & H2 & H3).
  exists out. split; [exact H1|]. split; [exact H2|].
  apply (H3 1 0%float 0.25%float); reflexivity.
Defined.

(** ** allocate, then plot_clusters *)

(** X18.  [allocate] never stores the linkage it computes (it raises
    before the assignment of hrp.py:80 completes), so [plot_clusters]
    called after any [allocate] on a new object hands [None] to
    [dendrogram] and leaves the object as [__init__] made it. *)
Theorem plot_after_allocate_sees_no_clusters {N : Numeric}
        (error_checks : option matrix -> option matrix -> option matrix -> result unit)
        (np_diff_ratio np_cov np_corrcoef : option matrix -> result matrix)
        (scipy_linkage : matrix -> string -> result matrix)
        (to_tree_pre_order : matrix -> result (list Z))
        (D : Type) (dendrogram : option matrix -> list string -> result D)
        names p r c d side linkage labels :
  plot_clusters dendrogram labels
    (fst (allocate error_checks np_diff_ratio np_cov np_corrcoef scipy_linkage
                   to_tree_pre_order names p r c d side linkage init))
  = (init, dendrogram None labels).
Proof.
  destruct (allocate_raises error_checks np_diff_ratio np_cov np_corrcoef scipy_linkage
              to_tree_pre_order names p r c d side linkage init) as [e ->].
  reflexivity.
Qed.
